(** * Text2-Image-Studio: the generation / edit / history flow of [App]

    A shallow embedding of the state controller of the single-page
    application (component [App], with the edit form of [ImageCard]) and of
    its persistence through [localStorage], followed by the properties the
    specification states about them.

    Conventions of the embedding.
    - A JavaScript string is the sequence of its UTF-16 code units
      ([jsstring], a list of [N]).
    - The hooks of [App] are one record [AppState]; the browser around it is
      a [World]: the component state, [localStorage], and the log of the
      calls made to the image service.
    - An [async] handler is cut at its [await]: the part that runs when the
      handler is called, and the part that runs when the awaited promise
      settles.  The second part receives what the first captured in its
      closure and runs on the state of that later moment, as the functional
      updates [setImages(prev => ...)] do.
    - What the environment decides is an argument: the outcome of a service
      call, the reading of [Date.now()], the text of
      [Math.random().toString(36)], the answer to [window.confirm]. *)

From Stdlib Require Import ZArith NArith String Ascii List Lia.
From Stdlib Require DecimalFacts DecimalPos DecimalN.
From stdpp Require Import base option list gmap.

Local Open Scope N_scope.

(** ** Strings *)

Abbreviation jsstring := (list N).

(** The code units of a literal of the source. *)
Fixpoint lit (s : string) : jsstring :=
  match s with
  | EmptyString => []
  | String a s' => N_of_ascii a :: lit s'
  end.
Arguments lit s%_string : simpl never.

(** [WhiteSpace] and [LineTerminator] of ECMAScript, the code units that
    [String.prototype.trim] strips. *)
Definition is_white_space (c : N) : bool :=
  (c =? 9) || (c =? 10) || (c =? 11) || (c =? 12) || (c =? 13) || (c =? 32)
  || (c =? 160) || (c =? 5760) || ((8192 <=? c) && (c <=? 8202))
  || (c =? 8232) || (c =? 8233) || (c =? 8239) || (c =? 8287)
  || (c =? 12288) || (c =? 65279).

Fixpoint trimStart (s : jsstring) : jsstring :=
  match s with
  | [] => []
  | c :: s' => if is_white_space c then trimStart s' else s
  end.

Definition trimEnd (s : jsstring) : jsstring := rev (trimStart (rev s)).

(** [s.trim()] *)
Definition trim (s : jsstring) : jsstring := trimEnd (trimStart s).

(** [s.substr(start, len)] for non-negative arguments. *)
Definition substr (start len : nat) (s : jsstring) : jsstring :=
  take len (drop start s).

(** A string in a condition: only the empty string is falsy. *)
Definition truthy (s : jsstring) : bool :=
  match s with [] => false | _ :: _ => true end.

(** ** types.ts *)

Inductive AspectRatio := Ratio_1_1 | Ratio_16_9 | Ratio_9_16 | Ratio_4_3 | Ratio_3_4.

Inductive Page := home | about | contact | privacy | terms | disclaimer.

Inductive Theme := dark | light.

Record GeneratedImage := mkImage {
  id : jsstring;
  url : jsstring;
  prompt : jsstring;
  timestamp : Z
}.

Global Instance GeneratedImage_eq_dec : EqDecision GeneratedImage.
Proof. solve_decision. Defined.

(** ** The state of [App]

    One field per [useState] hook of the component that the handlers below
    read or write (the hooks of the contact form are left out: no handler
    modelled here touches them).  The field [input] is the hook [prompt];
    the name [prompt] is the field of [GeneratedImage]. *)

Record AppState := mkApp {
  images : list GeneratedImage;
  input : jsstring;
  aspectRatio : AspectRatio;
  isGenerating : bool;
  isEditingId : option jsstring;
  error : option jsstring;
  theme : Theme;
  activePage : Page
}.

(** The initial values of the hooks. *)
Definition initialApp : AppState :=
  mkApp [] [] Ratio_1_1 false None None dark home.

(** ** JSON

    [JSON.stringify] and [JSON.parse] are built into the engine; they are
    modelled after ECMA-262 (sections 25.5.1 and 25.5.2) and ECMA-404.
    A number is kept as the decimal its literal denotes, [JNumber m e] for
    m x 10^e; the engine rounds it to a double, which changes nothing for the
    integers of magnitude below 2^53 that time stamps are.  The sign of a
    negative zero is not kept. *)

Module JSON.

Local Set Warnings "-register-all".

Inductive json :=
| JNull
| JBool (b : bool)
| JNumber (m e : Z)
| JString (s : jsstring)
| JArray (l : list json)
| JObject (l : list (jsstring * json)).

(** *** JSON.stringify, at the type [GeneratedImage[]] *)

Definition hex_digit (n : N) : N := if n <? 10 then 48 + n else 87 + n.

(** [UnicodeEscape]: a backslash, [u], and four lower-case hex digits. *)
Definition unicode_escape (c : N) : jsstring :=
  [92; 117; hex_digit (c / 4096 mod 16); hex_digit (c / 256 mod 16);
   hex_digit (c / 16 mod 16); hex_digit (c mod 16)].

Definition is_leading_surrogate (c : N) : bool := (55296 <=? c) && (c <=? 56319).
Definition is_trailing_surrogate (c : N) : bool := (56320 <=? c) && (c <=? 57343).

(** The body of [QuoteJSONString]: the two-character escapes of its table,
    a unicode escape for the other control characters and for a surrogate
    that is not part of a pair, the code units themselves otherwise. *)
Fixpoint quote_chars (s : jsstring) : jsstring :=
  match s with
  | [] => []
  | c :: s' =>
    if c =? 8 then 92 :: 98 :: quote_chars s'
    else if c =? 9 then 92 :: 116 :: quote_chars s'
    else if c =? 10 then 92 :: 110 :: quote_chars s'
    else if c =? 12 then 92 :: 102 :: quote_chars s'
    else if c =? 13 then 92 :: 114 :: quote_chars s'
    else if c =? 34 then 92 :: 34 :: quote_chars s'
    else if c =? 92 then 92 :: 92 :: quote_chars s'
    else if c <? 32 then unicode_escape c ++ quote_chars s'
    else if is_leading_surrogate c then
      match s' with
      | d :: s'' =>
        if is_trailing_surrogate d then c :: d :: quote_chars s''
        else unicode_escape c ++ quote_chars s'
      | [] => unicode_escape c
      end
    else if is_trailing_surrogate c then unicode_escape c ++ quote_chars s'
    else c :: quote_chars s'
  end.

Definition QuoteJSONString (s : jsstring) : jsstring :=
  34 :: quote_chars s ++ [34].

Fixpoint uint_chars (d : Decimal.uint) : jsstring :=
  match d with
  | Decimal.Nil => []
  | Decimal.D0 d' => 48 :: uint_chars d'
  | Decimal.D1 d' => 49 :: uint_chars d'
  | Decimal.D2 d' => 50 :: uint_chars d'
  | Decimal.D3 d' => 51 :: uint_chars d'
  | Decimal.D4 d' => 52 :: uint_chars d'
  | Decimal.D5 d' => 53 :: uint_chars d'
  | Decimal.D6 d' => 54 :: uint_chars d'
  | Decimal.D7 d' => 55 :: uint_chars d'
  | Decimal.D8 d' => 56 :: uint_chars d'
  | Decimal.D9 d' => 57 :: uint_chars d'
  end.

(** [Number::toString] of an integer of magnitude below 10^21: its decimal
    digits, after a minus sign when it is negative. *)
Definition Number_toString (z : Z) : jsstring :=
  match z with
  | Zneg p => 45 :: uint_chars (N.to_uint (Npos p))
  | _ => uint_chars (N.to_uint (Z.to_N z))
  end.

(** The properties of a record are serialised in the order in which the
    object literal of [handleGenerate] creates them (the spread of
    [handleEdit] keeps that order). *)
Definition stringify_image (img : GeneratedImage) : jsstring :=
  lit "{" ++ QuoteJSONString (lit "id") ++ lit ":" ++ QuoteJSONString (id img)
  ++ lit "," ++ QuoteJSONString (lit "url") ++ lit ":" ++ QuoteJSONString (url img)
  ++ lit "," ++ QuoteJSONString (lit "prompt") ++ lit ":" ++ QuoteJSONString (prompt img)
  ++ lit "," ++ QuoteJSONString (lit "timestamp") ++ lit ":" ++ Number_toString (timestamp img)
  ++ lit "}".

(** The elements of an array are separated by commas. *)
Fixpoint stringify_more (imgs : list GeneratedImage) : jsstring :=
  match imgs with
  | [] => []
  | img :: imgs' => lit "," ++ stringify_image img ++ stringify_more imgs'
  end.

Definition stringify_elements (imgs : list GeneratedImage) : jsstring :=
  match imgs with
  | [] => []
  | img :: imgs' => stringify_image img ++ stringify_more imgs'
  end.

Definition stringify (imgs : list GeneratedImage) : jsstring :=
  lit "[" ++ stringify_elements imgs ++ lit "]".

(** The value that an array of records is in the engine. *)
Definition image_value (img : GeneratedImage) : json :=
  JObject [(lit "id", JString (id img)); (lit "url", JString (url img));
           (lit "prompt", JString (prompt img));
           (lit "timestamp", JNumber (timestamp img) 0)].

Definition images_value (imgs : list GeneratedImage) : json :=
  JArray (map image_value imgs).

(** *** JSON.parse *)

(** The white space of JSON: tab, line feed, carriage return, space. *)
Definition is_json_ws (c : N) : bool :=
  (c =? 9) || (c =? 10) || (c =? 13) || (c =? 32).

Fixpoint skip_ws (s : jsstring) : jsstring :=
  match s with
  | [] => []
  | c :: s' => if is_json_ws c then skip_ws s' else s
  end.

Definition is_digit (c : N) : bool := (48 <=? c) && (c <=? 57).

Definition hex_value (c : N) : option N :=
  if is_digit c then Some (c - 48)
  else if (97 <=? c) && (c <=? 102) then Some (c - 87)
  else if (65 <=? c) && (c <=? 70) then Some (c - 55)
  else None.

Definition hex4 (a b c d : N) : option N :=
  a' ← hex_value a; b' ← hex_value b; c' ← hex_value c; d' ← hex_value d;
  Some (a' * 4096 + b' * 256 + c' * 16 + d').

(** The character that follows a backslash, [u] apart. *)
Definition unescape (c : N) : option N :=
  if c =? 34 then Some 34
  else if c =? 92 then Some 92
  else if c =? 47 then Some 47
  else if c =? 98 then Some 8
  else if c =? 102 then Some 12
  else if c =? 110 then Some 10
  else if c =? 114 then Some 13
  else if c =? 116 then Some 9
  else None.

Definition prepend (c : N) (r : option (jsstring * jsstring)) : option (jsstring * jsstring) :=
  match r with
  | Some (str, rest) => Some (c :: str, rest)
  | None => None
  end.

(** The characters of a string after its opening quote, up to the closing
    one: the string they denote and what follows the closing quote. *)
Fixpoint string_chars (s : jsstring) : option (jsstring * jsstring) :=
  match s with
  | [] => None
  | c :: s' =>
    if c =? 34 then Some ([], s')
    else if c =? 92 then
      match s' with
      | [] => None
      | x :: s'' =>
        if x =? 117 then
          match s'' with
          | h1 :: h2 :: h3 :: h4 :: t =>
            match hex4 h1 h2 h3 h4 with
            | Some u => prepend u (string_chars t)
            | None => None
            end
          | _ => None
          end
        else
          match unescape x with
          | Some u => prepend u (string_chars s'')
          | None => None
          end
      end
    else if c <? 32 then None
    else prepend c (string_chars s')
  end.

Definition digit_cons (c : N) (d : Decimal.uint) : Decimal.uint :=
  if c =? 48 then Decimal.D0 d else if c =? 49 then Decimal.D1 d
  else if c =? 50 then Decimal.D2 d else if c =? 51 then Decimal.D3 d
  else if c =? 52 then Decimal.D4 d else if c =? 53 then Decimal.D5 d
  else if c =? 54 then Decimal.D6 d else if c =? 55 then Decimal.D7 d
  else if c =? 56 then Decimal.D8 d else Decimal.D9 d.

(** The longest prefix of digits, and what follows it. *)
Fixpoint read_digits (s : jsstring) : Decimal.uint * jsstring :=
  match s with
  | [] => (Decimal.Nil, [])
  | c :: s' =>
    if is_digit c then
      let '(d, rest) := read_digits s' in (digit_cons c d, rest)
    else (Decimal.Nil, s)
  end.

Definition is_nil (d : Decimal.uint) : bool :=
  match d with Decimal.Nil => true | _ => false end.

(** The integer part: a single zero, or digits that start with a non-zero one. *)
Definition read_int (s : jsstring) : option (Decimal.uint * jsstring) :=
  match s with
  | [] => None
  | c :: s' =>
    if c =? 48 then Some (Decimal.D0 Decimal.Nil, s')
    else if is_digit c then Some (read_digits s)
    else None
  end.

(** The optional fraction: a point and at least one digit. *)
Definition read_frac (s : jsstring) : option (Decimal.uint * jsstring) :=
  match s with
  | c :: s' =>
    if c =? 46 then
      let '(d, rest) := read_digits s' in
      if is_nil d then None else Some (d, rest)
    else Some (Decimal.Nil, s)
  | [] => Some (Decimal.Nil, s)
  end.

(** The optional exponent: [e] or [E], an optional sign, at least one digit. *)
Definition read_exp (s : jsstring) : option (Z * jsstring) :=
  match s with
  | c :: s' =>
    if (c =? 101) || (c =? 69) then
      let '(neg, s'') :=
        match s' with
        | x :: t => if x =? 43 then (false, t) else if x =? 45 then (true, t) else (false, s')
        | [] => (false, s')
        end in
      let '(d, rest) := read_digits s'' in
      if is_nil d then None
      else Some (if neg : bool then (- Z.of_N (N.of_uint d))%Z else Z.of_N (N.of_uint d), rest)
    else Some (0%Z, s)
  | [] => Some (0%Z, s)
  end.

Definition parse_number (s : jsstring) : option (json * jsstring) :=
  let '(neg, s1) :=
    match s with
    | c :: s' => if c =? 45 then (true, s') else (false, s)
    | [] => (false, s)
    end in
  '(i, s2) ← read_int s1;
  '(f, s3) ← read_frac s2;
  '(x, s4) ← read_exp s3;
  let m := Z.of_N (N.of_uint (Decimal.app i f)) in
  Some (JNumber (if neg : bool then (- m)%Z else m)
                (x - Z.of_nat (Decimal.nb_digits f))%Z, s4).

(** [expect w s]: what follows the word [w] when [s] starts with it. *)
Fixpoint expect (w s : jsstring) : option jsstring :=
  match w with
  | [] => Some s
  | c :: w' =>
    match s with
    | x :: s' => if x =? c then expect w' s' else None
    | [] => None
    end
  end.

(** [CreateDataProperty]: a key that is already there keeps its place and
    takes the new value, a new key goes last.  (The engine lists the keys
    that are array indices before the others; no object here has one.) *)
Fixpoint obj_set (k : jsstring) (v : json) (l : list (jsstring * json)) : list (jsstring * json) :=
  match l with
  | [] => [(k, v)]
  | (k', v') :: l' =>
    if bool_decide (k' = k) then (k, v) :: l' else (k', v') :: obj_set k v l'
  end.

(** A recursive descent over the grammar.  [parse_value] expects its input
    to start at the value; [parse_elements] and [parse_members] read what
    follows an opening bracket or brace that is not closed at once.  Each
    returns what it read and the input that follows.  The fuel bounds the
    recursion; [parse] below gives enough of it for every input. *)
Fixpoint parse_value (fuel : nat) (s : jsstring) : option (json * jsstring) :=
  match fuel with
  | O => None
  | S fuel' =>
    match s with
    | [] => None
    | c :: s' =>
      if c =? 110 then r ← expect (lit "ull") s'; Some (JNull, r)
      else if c =? 116 then r ← expect (lit "rue") s'; Some (JBool true, r)
      else if c =? 102 then r ← expect (lit "alse") s'; Some (JBool false, r)
      else if c =? 34 then '(str, r) ← string_chars s'; Some (JString str, r)
      else if c =? 91 then
        match skip_ws s' with
        | [] => None
        | x :: r => if x =? 93 then Some (JArray [], r)
                    else parse_elements fuel' (x :: r) []
        end
      else if c =? 123 then
        match skip_ws s' with
        | [] => None
        | x :: r => if x =? 125 then Some (JObject [], r)
                    else parse_members fuel' (x :: r) []
        end
      else parse_number s
    end
  end
with parse_elements (fuel : nat) (s : jsstring) (acc : list json) : option (json * jsstring) :=
  match fuel with
  | O => None
  | S fuel' =>
    '(v, r) ← parse_value fuel' (skip_ws s);
    match skip_ws r with
    | [] => None
    | x :: r' =>
      if x =? 44 then parse_elements fuel' r' (acc ++ [v])
      else if x =? 93 then Some (JArray (acc ++ [v]), r')
      else None
    end
  end
with parse_members (fuel : nat) (s : jsstring) (acc : list (jsstring * json)) : option (json * jsstring) :=
  match fuel with
  | O => None
  | S fuel' =>
    match skip_ws s with
    | [] => None
    | q :: s' =>
      if q =? 34 then
        '(k, r) ← string_chars s';
        match skip_ws r with
        | [] => None
        | x :: r' =>
          if x =? 58 then
            '(v, r'') ← parse_value fuel' (skip_ws r');
            match skip_ws r'' with
            | [] => None
            | y :: t =>
              if y =? 44 then parse_members fuel' t (obj_set k v acc)
              else if y =? 125 then Some (JObject (obj_set k v acc), t)
              else None
            end
          else None
        end
      else None
    end
  end.

(** [JSON.parse(text)]: [None] stands for the [SyntaxError] it throws. *)
Definition parse (text : jsstring) : option json :=
  match parse_value (S (2 * length text)) (skip_ws text) with
  | Some (v, r) => match skip_ws r with [] => Some v | _ :: _ => None end
  | None => None
  end.

End JSON.

Import JSON.

(** ** The world around the component *)

(** The two requests of services/geminiService that [App] issues.  That
    module is not among the sources at hand: a request is logged, and what
    it settles with is an argument of the handler's continuation. *)
Inductive ServiceCall :=
| generateImageFromText (p : jsstring) (r : AspectRatio)
| editExistingImage (editPrompt : jsstring) (source : jsstring).

(** [localStorage] is what the specification takes it for, a store of
    strings under string keys with get and set. *)
Record World := mkWorld {
  app : AppState;
  localStorage : gmap jsstring jsstring;
  calls : list ServiceCall
}.

(** What a service call settles with: the image reference it resolves to, or
    the value it rejects with.  Of a rejection value the handlers only read
    the property [message]: it is a string, or [undefined], or the value is
    [null] or [undefined] itself and reading a property of it throws. *)
Inductive Rejection :=
| ErrorValue (message : option jsstring)
| Nullish.

Inductive Outcome :=
| Resolved (ref : jsstring)
| Rejected (e : Rejection).

(** The error of the engine on reading a property of [null] or [undefined]. *)
Inductive TypeError := CannotReadProperty.

(** ** Handlers: state transformers that may throw *)

(** A computation over the world ends normally with a value or abruptly
    with a thrown value of type [E]. *)
Inductive completion (E A : Type) :=
| Normal (a : A)
| Abrupt (e : E).
Arguments Normal {E A} a.
Arguments Abrupt {E A} e.

Definition M (E A : Type) : Type := World → completion E A * World.

Global Instance M_ret {E} : MRet (M E) := λ A a w, (Normal a, w).

Global Instance M_bind {E} : MBind (M E) := λ A B f m w,
  match m w with
  | (Normal a, w') => f a w'
  | (Abrupt e, w') => (Abrupt e, w')
  end.

Definition throw {E A} (e : E) : M E A := λ w, (Abrupt e, w).

(** [try { body } catch (err) { handler err } finally { final }] *)
Definition try_catch_finally {E E'} (body : M E unit) (handler : E → M E' unit) (final : M E' unit) : M E' unit :=
  λ w,
    let '(c, w1) :=
      match body w with
      | (Normal _, w1) => (Normal (), w1)
      | (Abrupt e, w1) => handler e w1
      end in
    match final w1 with
    | (Normal _, w2) => (c, w2)
    | (Abrupt e, w2) => (Abrupt e, w2)
    end.

(** The world in which a handler ends. *)
Definition exec {E A} (m : M E A) (w : World) : World := (m w).2.

(** [await] of a promise that has settled. *)
Definition await (o : Outcome) : M Rejection jsstring :=
  match o with
  | Resolved ref => mret ref
  | Rejected e => throw e
  end.

(** [err.message] *)
Definition message_of (e : Rejection) : M TypeError (option jsstring) :=
  match e with
  | ErrorValue m => mret m
  | Nullish => throw CannotReadProperty
  end.

(** ** The component [App] *)

Module App.

(** *** The two effects on [localStorage] *)

Definition storageKey : jsstring := lit "text2image-images".

(** The first effect of [App], run once when the component mounts: the
    argument that [setImages] is called with, if it is called.  An absent
    key reads as [null] and the empty string is falsy; a [SyntaxError] of
    [JSON.parse] is caught and logged. *)
Definition loadEffect (ls : gmap jsstring jsstring) : option json :=
  match ls !! storageKey with
  | None => None
  | Some saved =>
    if truthy saved then
      match JSON.parse saved with
      | Some v => Some v
      | None => None
      end
    else None
  end.

(** The value of the hook [images] once the load effect has run: the
    initial empty array unless [setImages] was called. *)
Definition load (ls : gmap jsstring jsstring) : json :=
  match loadEffect ls with
  | Some v => v
  | None => images_value []
  end.

(** The second effect of [App], run after every render in which [images]
    is a new array. *)
Definition save (imgs : list GeneratedImage) (ls : gmap jsstring jsstring) : gmap jsstring jsstring :=
  <[storageKey := JSON.stringify imgs]> ls.

(** *** The hooks *)

(** Reading the hooks: a handler sees the state of the render it was
    created in, which is the current one when an event calls it. *)
Definition get {E} : M E AppState := λ w, (Normal (app w), w).

Definition modify {E} (f : AppState → AppState) : M E unit :=
  λ w, (Normal (), mkWorld (f (app w)) (localStorage w) (calls w)).

(** The setters of the hooks.  [setImages] takes the functional form
    [prev => ...]; the render that follows it runs the save effect. *)
Definition setImages {E} (f : list GeneratedImage → list GeneratedImage) : M E unit :=
  λ w,
    let a := app w in
    let imgs := f (images a) in
    (Normal (),
     mkWorld (mkApp imgs (input a) (aspectRatio a) (isGenerating a)
                    (isEditingId a) (error a) (theme a) (activePage a))
             (save imgs (localStorage w)) (calls w)).

Definition setPrompt {E} (p : jsstring) : M E unit :=
  modify (λ a, mkApp (images a) p (aspectRatio a) (isGenerating a)
                     (isEditingId a) (error a) (theme a) (activePage a)).

Definition setIsGenerating {E} (b : bool) : M E unit :=
  modify (λ a, mkApp (images a) (input a) (aspectRatio a) b
                     (isEditingId a) (error a) (theme a) (activePage a)).

Definition setIsEditingId {E} (i : option jsstring) : M E unit :=
  modify (λ a, mkApp (images a) (input a) (aspectRatio a) (isGenerating a)
                     i (error a) (theme a) (activePage a)).

Definition setError {E} (e : option jsstring) : M E unit :=
  modify (λ a, mkApp (images a) (input a) (aspectRatio a) (isGenerating a)
                     (isEditingId a) e (theme a) (activePage a)).

(** Issuing a request to the service. *)
Definition call {E} (c : ServiceCall) : M E unit :=
  λ w, (Normal (), mkWorld (app w) (localStorage w) (calls w ++ [c])).

(** *** handleGenerate *)

(** What the environment supplies to the continuation of [handleGenerate]. *)
Record GenerateEnv := mkGenerateEnv {
  random36 : jsstring;      (* Math.random().toString(36) *)
  generatedAt : Z           (* Date.now() *)
}.

(** What the closure of a running [handleGenerate] holds. *)
Record GeneratePending := mkGeneratePending {
  pendingPrompt : jsstring;
  pendingRatio : AspectRatio
}.

Definition defaultGenerateError : jsstring :=
  lit "Failed to generate image. Please check your API key and try again.".

(** [err.message || fallback] *)
Definition message_or (m : option jsstring) (fallback : jsstring) : jsstring :=
  match m with
  | Some s => if truthy s then s else fallback
  | None => fallback
  end.

(** Lines 51-59: from the call of the handler to its [await].  [None] is
    the early [return]. *)
Definition handleGenerate : M TypeError (option GeneratePending) :=
  a ← get;
  if negb (truthy (trim (input a))) || isGenerating a then mret None
  else
    setIsGenerating true;;
    setError None;;
    call (generateImageFromText (input a) (aspectRatio a));;
    mret (Some (mkGeneratePending (input a) (aspectRatio a))).

(** Lines 59-72: from the settling of the service call to the end. *)
Definition handleGenerate_resume (p : GeneratePending) (o : Outcome) (env : GenerateEnv) : M TypeError unit :=
  try_catch_finally
    (url ← await o;
     let newImage := {|
       id := substr 2 9 (random36 env);
       url := url;
       prompt := pendingPrompt p;
       timestamp := generatedAt env
     |} in
     setImages (λ prev, newImage :: prev);;
     setPrompt [])
    (λ err,
     m ← message_of err;
     setError (Some (message_or m defaultGenerateError)))
    (setIsGenerating false).

(** *** handleEdit *)

Record EditPending := mkEditPending {
  pendingId : jsstring;
  pendingEditPrompt : jsstring;
  targetImage : GeneratedImage
}.

(** A value in a template literal. *)
Definition template_value (m : option jsstring) : jsstring :=
  match m with
  | Some s => s
  | None => lit "undefined"
  end.

(** Lines 75-83: up to the [await]. *)
Definition handleEdit (i editPrompt : jsstring) : M TypeError (option EditPending) :=
  a ← get;
  match find (λ img, bool_decide (id img = i)) (images a) with
  | None => mret None
  | Some target =>
    setIsEditingId (Some i);;
    setError None;;
    call (editExistingImage editPrompt (url target));;
    mret (Some (mkEditPending i editPrompt target))
  end.

(** Lines 83-95: from the settling of the service call to the end. *)
Definition handleEdit_resume (p : EditPending) (o : Outcome) (now : Z) : M TypeError unit :=
  try_catch_finally
    (newUrl ← await o;
     let target := targetImage p in
     let updatedImage := {|
       id := id target;
       url := newUrl;
       prompt := prompt target ++ lit " (Edit: " ++ pendingEditPrompt p ++ lit ")";
       timestamp := now
     |} in
     setImages (λ prev,
       map (λ img, if bool_decide (id img = pendingId p) then updatedImage else img) prev))
    (λ err,
     m ← message_of err;
     setError (Some (lit "Editing failed: " ++ template_value m)))
    (setIsEditingId None).

(** *** clearHistory *)

(** [confirmed] is the answer to [window.confirm]. *)
Definition clearHistory (confirmed : bool) : M TypeError unit :=
  if confirmed then setImages (λ _, []) else mret ().

(** *** toggleTheme *)

Definition toggleTheme : M TypeError unit :=
  modify (λ a, mkApp (images a) (input a) (aspectRatio a) (isGenerating a)
                     (isEditingId a) (error a)
                     (match theme a with dark => light | light => dark end)
                     (activePage a)).

End App.

Import App.

(** ** The component [ImageCard] *)

Module ImageCard.

(** The hooks of one card and the record it was rendered for. *)
Record Card := mkCard {
  image : GeneratedImage;
  editPrompt : jsstring;
  showEdit : bool
}.

(** The prop [isEditing] that [App] passes to the card of [img]:
    [isEditingId === image.id]. *)
Definition isEditing (a : AppState) (img : GeneratedImage) : bool :=
  bool_decide (isEditingId a = Some (id img)).

(** How far a submission of the edit form gets at once. *)
Inductive Submission :=
| Ignored                      (* the early [return] of the card *)
| Returned (c : Card)          (* [onEdit] returned at once; the card is reset *)
| Awaiting (p : EditPending).  (* [onEdit] awaits the service *)

(** What follows [await onEdit(...)]: lines 28-29. *)
Definition resetCard (c : Card) : Card :=
  mkCard (image c) [] false.

(** Lines 24-27, with [onEdit] bound to [handleEdit] as [App] does. *)
Definition handleEditSubmit (c : Card) : M TypeError Submission :=
  a ← get;
  if negb (truthy (trim (editPrompt c))) || isEditing a (image c)
  then mret Ignored
  else
    r ← handleEdit (id (image c)) (editPrompt c);
    match r with
    | None => mret (Returned (resetCard c))
    | Some p => mret (Awaiting p)
    end.

End ImageCard.

Import ImageCard.

(** ** Vocabulary of the properties *)

(** The record that a successful generation creates. *)
Definition newImageOf (p : GeneratePending) (ref : jsstring) (env : GenerateEnv) : GeneratedImage :=
  {| id := substr 2 9 (random36 env); url := ref;
     prompt := pendingPrompt p; timestamp := generatedAt env |}.

(** [img.id === X] *)
Definition matches (X : jsstring) (img : GeneratedImage) : bool :=
  bool_decide (id img = X).

(** The record that a successful edit puts in the place of its target. *)
Definition updatedImageOf (target : GeneratedImage) (instr ref : jsstring) (now : Z) : GeneratedImage :=
  {| id := id target; url := ref;
     prompt := prompt target ++ lit " (Edit: " ++ instr ++ lit ")";
     timestamp := now |}.

(** One successful edit as the environment sees it: the instruction typed,
    the reference the service resolves to, the reading of [Date.now()]. *)
Record Edit := mkEdit {
  instruction : jsstring;
  result : jsstring;
  editedAt : Z
}.

(** A successful edit of [X] from the call of [handleEdit] to the end of its
    continuation, nothing else happening in between. *)
Definition edit_run (X : jsstring) (e : Edit) (w : World) : World :=
  match handleEdit X (instruction e) w with
  | (Normal (Some p), w1) =>
    exec (handleEdit_resume p (Resolved (result e)) (editedAt e)) w1
  | (_, w1) => w1
  end.

(** Successful edits of [X], one after the other. *)
Definition edits_run (X : jsstring) (es : list Edit) (w : World) : World :=
  fold_left (λ w e, edit_run X e w) es w.

(** The annotation that an edit appends to the prompt. *)
Definition annotation (e : Edit) : jsstring :=
  lit " (Edit: " ++ instruction e ++ lit ")".

(** A generation from the call of [handleGenerate] to the end of its
    continuation, nothing else happening in between. *)
Definition generate_run (o : Outcome) (env : GenerateEnv) (w : World) : World :=
  match handleGenerate w with
  | (Normal (Some p), w1) => exec (handleGenerate_resume p o env) w1
  | (_, w1) => w1
  end.

(** The claim that a generated record is at the front and has an id that no
    record had before, at one successful generation. *)
Definition generation_is_fresh_at_front (w : World) (ref : jsstring)
    (env : GenerateEnv) : Prop :=
  ∃ new, images (app (generate_run (Resolved ref) env w)) !! 0%nat = Some new
    ∧ ∀ img, img ∈ images (app w) → id img ≠ id new.

(** The claim about the record of [X] after a successful edit, at one edit. *)
Definition edit_is_as_claimed (w : World) (X : jsstring) (e : Edit) : Prop :=
  ∀ old, find (matches X) (images (app w)) = Some old →
    ∃ new, find (matches X) (images (app (edit_run X e w))) = Some new
      ∧ url new = result e
      ∧ prompt new = prompt old ++ annotation e
      ∧ (timestamp old < timestamp new)%Z.

(** A record with a time stamp that [Date.now()] can have returned: a time
    value of ECMAScript, at most 8.64e15 milliseconds from the epoch. *)
Definition valid_image (img : GeneratedImage) : Prop :=
  (-8640000000000000 ≤ timestamp img ≤ 8640000000000000)%Z.

(** The claim that the load falls back to the empty sequence whenever the
    key is absent or its text does not parse as an array of records. *)
Definition load_falls_back (ls : gmap jsstring jsstring) : Prop :=
  (ls !! storageKey = None
   ∨ ∃ text, ls !! storageKey = Some text
       ∧ ¬ ∃ imgs, JSON.parse text = Some (images_value imgs)) →
  load ls = images_value [].

(** The storage mirrors the images: under the fixed key is the text of the
    current sequence. *)
Definition persisted (w : World) : Prop :=
  localStorage w !! storageKey = Some (JSON.stringify (images (app w))).

(** *** Sample data *)

Definition fox : GeneratedImage :=
  mkImage (lit "i") (lit "img://1") (lit "a red fox") 1000.

Definition owl : GeneratedImage :=
  mkImage (lit "k3") (lit "img://2") (lit "an owl") 2000.

(** A second record that bears the id of [fox]. *)
Definition fox_twin : GeneratedImage :=
  mkImage (lit "i") (lit "img://3") (lit "a blue fox") 3000.

(** A world at rest that shows [imgs], the text [typed] in the prompt box. *)
Definition gallery (imgs : list GeneratedImage) (typed : jsstring) : World :=
  mkWorld (mkApp imgs typed Ratio_1_1 false None None dark home) ∅ [].

(** ** The rest of the components

    What the claims above leave out of the three components: what [App]
    renders from its hooks, the start of the application, the remaining
    setters, the continuation of the card's submission, the download of a
    card, the contact form, the theme toggle, and the application as a
    system of events. *)

(** *** What [App] renders *)

Module View.

(** App line 156: [disabled={isGenerating || !prompt.trim()}]. *)
Definition generateDisabled (a : AppState) : bool :=
  isGenerating a || negb (truthy (trim (input a))).

(** App line 184: [{error && (...)}], the banner of the last error. *)
Definition errorShown (a : AppState) : bool :=
  match error a with
  | Some s => truthy s
  | None => false
  end.

(** App lines 222-229: one card per record, in order, with its prop
    [isEditing]. *)
Definition cards (a : AppState) : list (GeneratedImage * bool) :=
  map (λ img, (img, isEditing a img)) (images a).

End View.

(** *** The setters that the claims did not need *)

(** App line 142: [onClick={() => setAspectRatio(ratio)}]. *)
Definition setAspectRatio {E} (r : AspectRatio) : M E unit :=
  modify (λ a, mkApp (images a) (input a) r (isGenerating a)
                     (isEditingId a) (error a) (theme a) (activePage a)).

(** App lines 434-518: [onClick={() => setActivePage(page)}]. *)
Definition setActivePage {E} (page : Page) : M E unit :=
  modify (λ a, mkApp (images a) (input a) (aspectRatio a) (isGenerating a)
                     (isEditingId a) (error a) (theme a) page).

(** *** The start of the application *)

(** The arrays of records that the type [GeneratedImage[]] of the hook
    describes, as [image_value] lays them out. *)
Definition typed_image (v : json) : option GeneratedImage :=
  match v with
  | JObject [(k1, JString i); (k2, JString u); (k3, JString p); (k4, JNumber t e)] =>
    if bool_decide (k1 = lit "id") && bool_decide (k2 = lit "url")
       && bool_decide (k3 = lit "prompt") && bool_decide (k4 = lit "timestamp")
       && bool_decide (e = 0%Z)
    then Some (mkImage i u p t) else None
  | _ => None
  end.

Fixpoint typed_images (l : list json) : option (list GeneratedImage) :=
  match l with
  | [] => Some []
  | v :: l' =>
    match typed_image v, typed_images l' with
    | Some img, Some imgs => Some (img :: imgs)
    | _, _ => None
    end
  end.

Definition typed (v : json) : option (list GeneratedImage) :=
  match v with
  | JArray l => typed_images l
  | _ => None
  end.

(** The first render and its two effects (App lines 26-40).  The load effect
    runs first and reads the storage; the save effect then writes the empty
    array of the first render; when the load effect has called [setImages],
    the second render follows and the save effect writes its images.  A
    parsed value that is no array of records is outside the typed state of
    this development: [None]. *)
Definition mount (ls : gmap jsstring jsstring) : option World :=
  let first := mkWorld initialApp (save [] ls) [] in
  match loadEffect ls with
  | None => Some first
  | Some v =>
    match typed v with
    | Some imgs => Some (exec (setImages (E:=TypeError) (λ _, imgs)) first)
    | None => None
    end
  end.

(** App line 199: [images.length], which the home page reads on every
    render, of whatever value the hook holds.  Reading a property of [null]
    throws; an array and a string have a length; an object has the member
    [length] it was given, if any; a boolean and a number have none. *)
Definition images_length (v : json) : completion TypeError (option json) :=
  match v with
  | JNull => Abrupt CannotReadProperty
  | JArray l => Normal (Some (JNumber (Z.of_nat (length l)) 0))
  | JString s => Normal (Some (JNumber (Z.of_nat (length s)) 0))
  | JObject l => Normal (snd <$> find (λ kv, bool_decide (kv.1 = lit "length")) l)
  | JBool _ => Normal None
  | JNumber _ _ => Normal None
  end.

(** *** ImageCard: after [await onEdit(...)] *)

(** ImageCard lines 27-29: the card is reset when the promise of [onEdit]
    fulfils; when it rejects, [handleEditSubmit] ends there. *)
Definition handleEditSubmit_resume (c : Card) (r : completion TypeError unit) : Card :=
  match r with
  | Normal _ => resetCard c
  | Abrupt _ => c
  end.

(** A submission of the card from the click to the end: the card and the
    world it leaves, the service settling with [o] at the time [now]. *)
Definition card_run (c : Card) (o : Outcome) (now : Z) (w : World) : Card * World :=
  match handleEditSubmit c w with
  | (Normal Ignored, w1) => (c, w1)
  | (Normal (Returned c'), w1) => (c', w1)
  | (Normal (Awaiting p), w1) =>
    let '(r, w2) := handleEdit_resume p o now w1 in
    (handleEditSubmit_resume c r, w2)
  | (Abrupt _, w1) => (c, w1)
  end.

(** *** ImageCard.handleDownload *)

Module Download.

Record Anchor := mkAnchor {
  href : jsstring;
  download : jsstring
}.

(** Of the document: the children of [body] by node, the next node that
    [createElement] makes, and the anchors clicked so far. *)
Record Document := mkDocument {
  body : list nat;
  nextNode : nat;
  clicked : list Anchor
}.

(** A document whose [body] holds only nodes that exist. *)
Definition well_formed (d : Document) : Prop :=
  Forall (λ n, (n < nextNode d)%nat) (body d).

(** ImageCard lines 15-22. *)
Definition handleDownload (img : GeneratedImage) (d : Document) : Document :=
  let link := nextNode d in
  let anchor := {| href := url img;
                   download := lit "lumina-ai-" ++ id img ++ lit ".png" |} in
  let appended := body d ++ [link] in
  let removed := filter (λ n, n ≠ link) appended in
  mkDocument removed (S link) (clicked d ++ [anchor]).

End Download.

(** *** ThemeToggle *)

Module ThemeToggle.

(** The values of the type ['dark' | 'light']. *)
Definition text (t : Theme) : jsstring :=
  match t with dark => lit "dark" | light => lit "light" end.

(** ThemeToggle line 13. *)
Definition title (t : Theme) : jsstring :=
  lit "Switch to " ++ (match t with dark => lit "light" | light => lit "dark" end)
  ++ lit " mode".

End ThemeToggle.

(** *** The contact form of [App] *)

Module Contact.

Record Form := mkForm {
  name : jsstring;
  email : jsstring;
  subject : jsstring;
  message : jsstring
}.

Definition emptyForm : Form := mkForm [] [] [] [].

Inductive Field := Name | Email | Subject | Message.

(** The three hooks of the form (App lines 21-23) and what the event loop
    holds for it: the submissions that wait for their 1500 ms, the timers
    that will hide the success panel. *)
Record State := mkState {
  contactForm : Form;
  isSubmittingContact : bool;
  contactSuccess : bool;
  submissions : nat;
  hideTimers : nat
}.

Definition initial : State := mkState emptyForm false false 0 0.

(** App lines 322-356: [setContactForm({ ...contactForm, field: value })]. *)
Definition setField (f : Field) (v : jsstring) (s : State) : State :=
  let c := contactForm s in
  let c' := match f with
            | Name => mkForm v (email c) (subject c) (message c)
            | Email => mkForm (name c) v (subject c) (message c)
            | Subject => mkForm (name c) (email c) v (message c)
            | Message => mkForm (name c) (email c) (subject c) v
            end in
  mkState c' (isSubmittingContact s) (contactSuccess s) (submissions s) (hideTimers s).

(** App lines 98-101: up to the [await]. *)
Definition handleContactSubmit (s : State) : State :=
  mkState (contactForm s) true (contactSuccess s) (S (submissions s)) (hideTimers s).

(** App lines 102-105: after the 1500 ms. *)
Definition handleContactSubmit_resume (s : State) : State :=
  mkState emptyForm false true (pred (submissions s)) (S (hideTimers s)).

(** App line 105: the callback of the 5000 ms timer. *)
Definition hideSuccess (s : State) : State :=
  mkState (contactForm s) (isSubmittingContact s) false (submissions s)
          (pred (hideTimers s)).

(** App line 307: the button of the success panel. *)
Definition sendAnother (s : State) : State :=
  mkState (contactForm s) (isSubmittingContact s) false (submissions s) (hideTimers s).

(** The events of the form.  The form is rendered in place of the success
    panel (App line 297), its button is disabled while a submission runs
    (App line 363), and a timer fires only if it was set. *)
Inductive step : State → State → Prop :=
| step_field s f v :
    contactSuccess s = false → step s (setField f v s)
| step_submit s :
    contactSuccess s = false → isSubmittingContact s = false →
    step s (handleContactSubmit s)
| step_resume s :
    (0 < submissions s)%nat → step s (handleContactSubmit_resume s)
| step_hide s :
    (0 < hideTimers s)%nat → step s (hideSuccess s)
| step_another s :
    contactSuccess s = true → step s (sendAnother s).

(** While a submission runs it is the only one and the panel is hidden;
    while the panel is shown the form behind it is empty. *)
Definition consistent (s : State) : Prop :=
  (if isSubmittingContact s
   then submissions s = 1%nat ∧ contactSuccess s = false
   else submissions s = 0%nat)
  ∧ (contactSuccess s = true → contactForm s = emptyForm).

End Contact.

(** *** The application as a system of events *)

(** The world and the continuations that wait for the service. *)
Record System := mkSystem {
  world : World;
  generating : list GeneratePending;
  editing : list EditPending
}.

Definition started {A} (o : option A) : list A :=
  match o with Some p => [p] | None => [] end.

Definition awaited (s : Submission) : list EditPending :=
  match s with Awaiting p => [p] | _ => [] end.

(** One event: a key typed, a ratio or a page chosen, the theme toggled, the
    prompt submitted, the history cleared, the form of a card submitted, or
    a call to the service settling.  The guards are those of the handlers;
    the outcome of a call, the clock and the random text are free. *)
Inductive app_step : System → System → Prop :=
| step_type s v :
    app_step s (mkSystem (exec (setPrompt (E:=TypeError) v) (world s))
                         (generating s) (editing s))
| step_ratio s r :
    app_step s (mkSystem (exec (setAspectRatio (E:=TypeError) r) (world s))
                         (generating s) (editing s))
| step_page s page :
    app_step s (mkSystem (exec (setActivePage (E:=TypeError) page) (world s))
                         (generating s) (editing s))
| step_theme s :
    app_step s (mkSystem (exec toggleTheme (world s)) (generating s) (editing s))
| step_clear s b :
    app_step s (mkSystem (exec (clearHistory b) (world s)) (generating s) (editing s))
| step_generate s o w' :
    handleGenerate (world s) = (Normal o, w') →
    app_step s (mkSystem w' (generating s ++ started o) (editing s))
| step_generated s l1 p l2 o env :
    generating s = l1 ++ p :: l2 →
    app_step s (mkSystem (exec (handleGenerate_resume p o env) (world s))
                         (l1 ++ l2) (editing s))
| step_card s c sub w' :
    handleEditSubmit c (world s) = (Normal sub, w') →
    app_step s (mkSystem w' (generating s) (editing s ++ awaited sub))
| step_edited s l1 p l2 o now :
    editing s = l1 ++ p :: l2 →
    app_step s (mkSystem (exec (handleEdit_resume p o now) (world s))
                         (generating s) (l1 ++ l2)).

(** At most one generation is in flight, and [isGenerating] says whether
    one is. *)
Definition single_flight (s : System) : Prop :=
  (isGenerating (app (world s)) = true ∧ ∃ p, generating s = [p])
  ∨ (isGenerating (app (world s)) = false ∧ generating s = []).

(** A card shows its spinner only while a call for its id is in flight. *)
Definition spinner_backed (s : System) : Prop :=
  ∀ X, isEditingId (app (world s)) = Some X →
    ∃ p, p ∈ editing s ∧ pendingId p = X.

(** Nothing is in flight and no flag is set. *)
Definition idle (s : System) : Prop :=
  generating s = [] ∧ editing s = []
  ∧ isGenerating (app (world s)) = false ∧ isEditingId (app (world s)) = None.

(** ** The model at work *)

Example trim_example : trim (lit "  a red fox ") = lit "a red fox".
Proof. reflexivity. Qed.

Example substr_example : substr 2 9 (lit "0.4fzyo82mvyr") = lit "4fzyo82mv".
Proof. reflexivity. Qed.

(** Generating from the prompt [a red fox], the service resolving to
    [img://1]. *)
Example generate_example :
  let w := generate_run (Resolved (lit "img://1"))
             (mkGenerateEnv (lit "0.4fzyo82mvyr") 1000) (gallery [] (lit "a red fox")) in
  images (app w) = [mkImage (lit "4fzyo82mv") (lit "img://1") (lit "a red fox") 1000]
  ∧ input (app w) = [] ∧ isGenerating (app w) = false
  ∧ calls w = [generateImageFromText (lit "a red fox") Ratio_1_1].
Proof. repeat split. Qed.

(** Editing that record with [make it blue], the service resolving to
    [img://2]. *)
Example edit_example :
  images (app (edit_run (lit "i") (mkEdit (lit "make it blue") (lit "img://2") 2000)
                 (gallery [fox] [])))
  = [mkImage (lit "i") (lit "img://2") (lit "a red fox (Edit: make it blue)") 2000].
Proof. reflexivity. Qed.

(** A failed generation records the message, or the fallback text. *)
Example generate_failure_example :
  let w := generate_run (Rejected (ErrorValue None)) (mkGenerateEnv (lit "0.i") 1000)
             (gallery [fox] (lit "an owl")) in
  images (app w) = [fox] ∧ error (app w) = Some defaultGenerateError
  ∧ isGenerating (app w) = false ∧ input (app w) = lit "an owl".
Proof. repeat split. Qed.

Example JSON_parse_examples :
  JSON.parse (lit " [1.50e-3, -12, true, null, [], {}] ")
  = Some (JArray [JNumber 150 (-5); JNumber (-12) 0; JBool true; JNull;
                  JArray []; JObject []])
  ∧ JSON.parse (lit "[1,]") = None
  ∧ JSON.parse (lit "[01]") = None
  ∧ JSON.parse (lit "{} x") = None
  ∧ JSON.parse [34; 92; 117; 48; 48; 52; 49; 92; 110; 34] = Some (JString [65; 10]).
Proof. repeat split. Qed.

Example JSON_stringify_example :
  JSON.stringify [mkImage [34; 8] (lit "u") [55357; 56832; 55357] (-7)]
  = lit "[{" ++ [34] ++ lit "id" ++ [34] ++ lit ":" ++ [34; 92; 34; 92; 98; 34]
    ++ lit "," ++ [34] ++ lit "url" ++ [34] ++ lit ":" ++ [34; 117; 34]
    ++ lit "," ++ [34] ++ lit "prompt" ++ [34] ++ lit ":"
    ++ [34; 55357; 56832] ++ lit "\ud83d" ++ [34]
    ++ lit "," ++ [34] ++ lit "timestamp" ++ [34] ++ lit ":-7}]".
Proof. reflexivity. Qed.

(** * Properties *)

(** ** Strings *)

Lemma trimStart_nil (s : jsstring) :
  trimStart s = [] ↔ forallb is_white_space s = true.
Proof.
  induction s as [|c s IH]; simpl; [done|].
  destruct (is_white_space c); simpl; [exact IH|].
  split; discriminate.
Qed.

Lemma trimStart_head (s : jsstring) (c : N) (t : jsstring) :
  trimStart s = c :: t → is_white_space c = false.
Proof.
  induction s as [|x s IH]; simpl; [discriminate|].
  destruct (is_white_space x) eqn:Hx; [exact IH|].
  intros [= -> _]. exact Hx.
Qed.

Lemma forallb_rev {A} (f : A → bool) (l : list A) :
  forallb f (rev l) = forallb f l.
Proof.
  induction l as [|x l IH]; simpl; [done|].
  rewrite forallb_app, IH. simpl. rewrite andb_true_r. apply andb_comm.
Qed.

Lemma trimEnd_nil (s : jsstring) :
  trimEnd s = [] ↔ forallb is_white_space s = true.
Proof.
  unfold trimEnd. rewrite <- (forallb_rev _ s), <- trimStart_nil.
  split; intros H.
  - apply (f_equal (@rev _)) in H. by rewrite rev_involutive in H.
  - by rewrite H.
Qed.

(** [s.trim()] is empty exactly when [s] holds white space only. *)
Lemma trim_nil (s : jsstring) :
  trim s = [] ↔ forallb is_white_space s = true.
Proof.
  unfold trim. rewrite trimEnd_nil. split.
  - intros H. apply trimStart_nil.
    destruct (trimStart s) as [|c t] eqn:Hs; [done|].
    apply trimStart_head in Hs. simpl in H. by rewrite Hs in H.
  - intros H. apply trimStart_nil in H. by rewrite H.
Qed.

Lemma truthy_trim (s : jsstring) :
  truthy (trim s) = negb (forallb is_white_space s).
Proof.
  destruct (forallb is_white_space s) eqn:H.
  - apply trim_nil in H. by rewrite H.
  - destruct (trim s) eqn:Ht; [|done].
    apply trim_nil in Ht. congruence.
Qed.

(** ** try / catch / finally *)

(** Whatever the body and the handler do, the [finally] block runs last. *)
Lemma try_catch_finally_last {E E'} (body : M E unit) (handler : E → M E' unit)
    (final : M E' unit) (P : World → Prop) :
  (∀ w, P (exec final w)) →
  ∀ w, P (exec (try_catch_finally body handler final) w).
Proof.
  intros Hfinal w. unfold exec, try_catch_finally.
  destruct (body w) as [[[]|e] w1].
  - specialize (Hfinal w1). unfold exec in Hfinal.
    destruct (final w1) as [[[]|e'] w2]; exact Hfinal.
  - destruct (handler e w1) as [c w2].
    specialize (Hfinal w2). unfold exec in Hfinal.
    destruct (final w2) as [[[]|e'] w3]; exact Hfinal.
Qed.

(** ** Generation *)

Lemma handleGenerate_resume_resolved (p : GeneratePending) (ref : jsstring)
    (env : GenerateEnv) (w : World) :
  let imgs := newImageOf p ref env :: images (app w) in
  handleGenerate_resume p (Resolved ref) env w =
  (Normal (),
   mkWorld (mkApp imgs [] (aspectRatio (app w)) false (isEditingId (app w))
                  (error (app w)) (theme (app w)) (activePage (app w)))
           (save imgs (localStorage w)) (calls w)).
Proof. reflexivity. Qed.

Lemma handleGenerate_rejected (w : World) :
  forallb is_white_space (input (app w)) = true ∨ isGenerating (app w) = true →
  handleGenerate w = (Normal None, w).
Proof.
  intros H. unfold handleGenerate, mbind, M_bind, get.
  rewrite truthy_trim, negb_involutive.
  destruct H as [-> | ->]; [done|]. by rewrite orb_true_r.
Qed.

Lemma handleGenerate_accepted (w : World) :
  forallb is_white_space (input (app w)) = false → isGenerating (app w) = false →
  handleGenerate w =
  (Normal (Some (mkGeneratePending (input (app w)) (aspectRatio (app w)))),
   mkWorld (mkApp (images (app w)) (input (app w)) (aspectRatio (app w)) true
                  (isEditingId (app w)) None (theme (app w)) (activePage (app w)))
           (localStorage w)
           (calls w ++ [generateImageFromText (input (app w)) (aspectRatio (app w))])).
Proof.
  intros H1 H2. unfold handleGenerate, mbind, M_bind, get.
  rewrite truthy_trim, negb_involutive, H1, H2. reflexivity.
Qed.

(** ** Editing *)

Lemma handleEdit_not_found (X instr : jsstring) (w : World) :
  find (matches X) (images (app w)) = None →
  handleEdit X instr w = (Normal None, w).
Proof.
  intros H. unfold handleEdit, mbind, M_bind, get. simpl.
  unfold matches in H. by rewrite H.
Qed.

Lemma handleEdit_found (X instr : jsstring) (w : World) (target : GeneratedImage) :
  find (matches X) (images (app w)) = Some target →
  handleEdit X instr w =
  (Normal (Some (mkEditPending X instr target)),
   mkWorld (mkApp (images (app w)) (input (app w)) (aspectRatio (app w))
                  (isGenerating (app w)) (Some X) None (theme (app w))
                  (activePage (app w)))
           (localStorage w)
           (calls w ++ [editExistingImage instr (url target)])).
Proof.
  intros H. unfold handleEdit, mbind, M_bind, get. simpl.
  unfold matches in H. by rewrite H.
Qed.

(** What a call of [handleEdit] that reaches the service has captured. *)
Lemma handleEdit_pending (X instr : jsstring) (w w1 : World) (p : EditPending) :
  handleEdit X instr w = (Normal (Some p), w1) →
  find (matches X) (images (app w)) = Some (targetImage p)
  ∧ pendingId p = X ∧ pendingEditPrompt p = instr
  ∧ images (app w1) = images (app w).
Proof.
  intros H.
  destruct (find (matches X) (images (app w))) as [target|] eqn:Hf.
  - rewrite (handleEdit_found _ _ _ _ Hf) in H.
    injection H as <- <-. done.
  - rewrite (handleEdit_not_found _ _ _ Hf) in H. discriminate.
Qed.

Lemma handleEdit_resume_resolved (p : EditPending) (ref : jsstring) (now : Z) (w : World) :
  let updated := updatedImageOf (targetImage p) (pendingEditPrompt p) ref now in
  let imgs := map (λ img, if matches (pendingId p) img then updated else img)
                  (images (app w)) in
  handleEdit_resume p (Resolved ref) now w =
  (Normal (),
   mkWorld (mkApp imgs (input (app w)) (aspectRatio (app w)) (isGenerating (app w))
                  None (error (app w)) (theme (app w)) (activePage (app w)))
           (save imgs (localStorage w)) (calls w)).
Proof. reflexivity. Qed.

Lemma find_matches_id (X : jsstring) (l : list GeneratedImage) (r : GeneratedImage) :
  find (matches X) l = Some r → id r = X.
Proof.
  intros H. apply find_some in H as [_ H].
  unfold matches in H. by apply bool_decide_eq_true in H.
Qed.

Lemma find_first {A} (f : A → bool) (l : list A) (x : A) :
  find f l = Some x →
  ∃ k, l !! k = Some x ∧ f x = true
       ∧ ∀ j y, (j < k)%nat → l !! j = Some y → f y = false.
Proof.
  induction l as [|a l IH]; simpl; [discriminate|].
  destruct (f a) eqn:Ha.
  - intros [= ->]. exists 0%nat. repeat split; [done|]. intros j y Hj. lia.
  - intros H. destruct (IH H) as (k & Hk & Hx & Hbefore).
    exists (S k). repeat split; [done..|].
    intros [|j] y Hj Hy; simpl in Hy.
    + by injection Hy as <-.
    + apply (Hbefore j); [lia|done].
Qed.

Lemma find_map_replace (X : jsstring) (l : list GeneratedImage) (old new : GeneratedImage) :
  id new = X →
  find (matches X) l = Some old →
  find (matches X) (map (λ img, if matches X img then new else img) l) = Some new.
Proof.
  intros Hnew. induction l as [|a l IH]; simpl; [discriminate|].
  destruct (matches X a) eqn:Ha.
  - intros _. unfold matches at 1. by rewrite bool_decide_eq_true_2.
  - rewrite Ha. exact IH.
Qed.

Lemma edit_run_found (X : jsstring) (e : Edit) (w : World) (old : GeneratedImage) :
  find (matches X) (images (app w)) = Some old →
  images (app (edit_run X e w)) =
  map (λ img, if matches X img
              then updatedImageOf old (instruction e) (result e) (editedAt e)
              else img) (images (app w)).
Proof.
  intros H. unfold edit_run. by rewrite (handleEdit_found _ _ _ _ H).
Qed.

Lemma edit_run_find (X : jsstring) (e : Edit) (w : World) (old : GeneratedImage) :
  find (matches X) (images (app w)) = Some old →
  find (matches X) (images (app (edit_run X e w))) =
  Some (updatedImageOf old (instruction e) (result e) (editedAt e)).
Proof.
  intros H. rewrite (edit_run_found _ _ _ _ H).
  apply (find_map_replace X _ old); [|done].
  simpl. by apply find_matches_id in H.
Qed.

Lemma edits_run_find (X : jsstring) (es : list Edit) (w : World) (old : GeneratedImage) :
  find (matches X) (images (app w)) = Some old →
  ∃ new, find (matches X) (images (app (edits_run X es w))) = Some new
    ∧ prompt new = prompt old ++ concat (map annotation es).
Proof.
  revert w old. induction es as [|e es IH]; intros w old H; simpl.
  - exists old. by rewrite app_nil_r.
  - apply (edit_run_find X e) in H.
    destruct (IH _ _ H) as (new & Hnew & Hprompt).
    exists new. split; [exact Hnew|].
    rewrite Hprompt. cbn [prompt updatedImageOf map concat]. unfold annotation.
    by rewrite <- !app_assoc.
Qed.

(** ** The storage follows the images *)

(** Every update of the images is saved at once. *)
Lemma setImages_persisted {E} (f : list GeneratedImage → list GeneratedImage) (w : World) :
  persisted (exec (setImages (E:=E) f) w).
Proof. unfold persisted, exec, setImages, save. cbn. apply lookup_insert_eq. Qed.

(** No handler lets the storage fall behind the images. *)
Lemma persisted_preserved (w : World) :
  persisted w →
  persisted (exec handleGenerate w)
  ∧ (∀ p o env, persisted (exec (handleGenerate_resume p o env) w))
  ∧ (∀ X instr, persisted (exec (handleEdit X instr) w))
  ∧ (∀ p o now, persisted (exec (handleEdit_resume p o now) w))
  ∧ (∀ b, persisted (exec (clearHistory b) w))
  ∧ (∀ c, persisted (exec (handleEditSubmit c) w)).
Proof.
  intros Hw.
  assert (Hedit : ∀ X instr, persisted (exec (handleEdit X instr) w)).
  { intros X instr. unfold exec.
    destruct (find (matches X) (images (app w))) as [target|] eqn:Hf.
    - by rewrite (handleEdit_found _ _ _ _ Hf).
    - by rewrite (handleEdit_not_found _ _ _ Hf). }
  split; [|split; [|split; [|split; [|split]]]].
  - unfold exec, handleGenerate, mbind, M_bind, get.
    by destruct (negb (truthy (trim (input (app w)))) || isGenerating (app w)).
  - intros p [ref|[m|]] env; [|done..].
    unfold exec. rewrite handleGenerate_resume_resolved.
    unfold persisted, save. cbn. apply lookup_insert_eq.
  - exact Hedit.
  - intros p [ref|[m|]] now; [|done..].
    unfold exec. rewrite handleEdit_resume_resolved.
    unfold persisted, save. cbn. apply lookup_insert_eq.
  - intros [|]; [apply setImages_persisted | done].
  - intros c. unfold exec, handleEditSubmit, mbind, M_bind, get.
    destruct (negb (truthy (trim (editPrompt c))) || isEditing (app w) (image c));
      [done|].
    specialize (Hedit (id (image c)) (editPrompt c)). unfold exec in Hedit.
    destruct (handleEdit (id (image c)) (editPrompt c) w) as [[[p|]|e] w1]; done.
Qed.

(** ** JSON: strings *)

Lemma hex_value_digit (n : N) : n < 16 → hex_value (hex_digit n) = Some n.
Proof.
  intros H.
  assert (n = 0 ∨ n = 1 ∨ n = 2 ∨ n = 3 ∨ n = 4 ∨ n = 5 ∨ n = 6 ∨ n = 7 ∨ n = 8
          ∨ n = 9 ∨ n = 10 ∨ n = 11 ∨ n = 12 ∨ n = 13 ∨ n = 14 ∨ n = 15) as Hn by lia.
  repeat (destruct Hn as [-> | Hn]; [reflexivity|]). by subst.
Qed.

Lemma hex4_escape (c : N) :
  c < 65536 →
  hex4 (hex_digit (c / 4096 mod 16)) (hex_digit (c / 256 mod 16))
       (hex_digit (c / 16 mod 16)) (hex_digit (c mod 16)) = Some c.
Proof.
  intros H. unfold hex4.
  rewrite !hex_value_digit by (apply N.mod_lt; lia).
  cbn [mbind option_bind]. f_equal.
  pose proof (N.div_mod c 16) as H0.
  pose proof (N.div_mod (c / 16) 16) as H1.
  pose proof (N.div_mod (c / 256) 16) as H2.
  rewrite N.Div0.div_div in H1. rewrite N.Div0.div_div in H2.
  change (16 * 16) with 256 in H1. change (256 * 16) with 4096 in H2.
  rewrite (N.mod_small (c / 4096) 16) by (apply N.Div0.div_lt_upper_bound; lia).
  lia.
Qed.

Lemma string_chars_unicode (c : N) (t : jsstring) :
  c < 65536 →
  string_chars (unicode_escape c ++ t) = prepend c (string_chars t).
Proof.
  intros H. unfold unicode_escape. simpl.
  by rewrite hex4_escape.
Qed.

Lemma string_chars_raw (c : N) (t : jsstring) :
  c ≠ 34 → c ≠ 92 → 32 ≤ c →
  string_chars (c :: t) = prepend c (string_chars t).
Proof.
  intros H1 H2 H3. cbn [string_chars].
  destruct (N.eqb_spec c 34); [done|]. destruct (N.eqb_spec c 92); [done|].
  destruct (N.ltb_spec c 32); [lia|]. done.
Qed.

Lemma surrogate_bounds (c : N) :
  (is_leading_surrogate c = true → 32 ≤ c < 65536 ∧ c ≠ 34 ∧ c ≠ 92)
  ∧ (is_trailing_surrogate c = true → 32 ≤ c < 65536 ∧ c ≠ 34 ∧ c ≠ 92).
Proof.
  unfold is_leading_surrogate, is_trailing_surrogate.
  split; intros [H1 H2]%andb_true_iff;
    apply N.leb_le in H1; apply N.leb_le in H2; lia.
Qed.

(** Reading back what [QuoteJSONString] wrote, up to the closing quote. *)
Lemma string_chars_quote_chars (s rest : jsstring) :
  string_chars (quote_chars s ++ 34 :: rest) = Some (s, rest).
Proof.
  remember (length s) as n eqn:Hn. revert s Hn.
  induction n as [n IH] using lt_wf_ind. intros s Hn.
  destruct s as [|c s]; [reflexivity|].
  assert (IH1 : string_chars (quote_chars s ++ 34 :: rest) = Some (s, rest)).
  { apply (IH (length s)); [subst n; simpl; lia | done]. }
  cbn [quote_chars].
  destruct (N.eqb_spec c 8) as [->|]; [cbn; by rewrite IH1|].
  destruct (N.eqb_spec c 9) as [->|]; [cbn; by rewrite IH1|].
  destruct (N.eqb_spec c 10) as [->|]; [cbn; by rewrite IH1|].
  destruct (N.eqb_spec c 12) as [->|]; [cbn; by rewrite IH1|].
  destruct (N.eqb_spec c 13) as [->|]; [cbn; by rewrite IH1|].
  destruct (N.eqb_spec c 34) as [->|]; [cbn; by rewrite IH1|].
  destruct (N.eqb_spec c 92) as [->|]; [cbn; by rewrite IH1|].
  destruct (N.ltb_spec c 32).
  { rewrite <- app_assoc, string_chars_unicode by lia. by rewrite IH1. }
  destruct (is_leading_surrogate c) eqn:Hlead.
  { apply surrogate_bounds in Hlead.
    destruct s as [|d s].
    - rewrite string_chars_unicode by lia. reflexivity.
    - destruct (is_trailing_surrogate d) eqn:Htrail.
      + apply surrogate_bounds in Htrail.
        rewrite <- !app_comm_cons, !string_chars_raw by lia.
        rewrite (IH (length s)); [done | subst n; simpl; lia | done].
      + rewrite <- app_assoc, string_chars_unicode by lia. by rewrite IH1. }
  destruct (is_trailing_surrogate c) eqn:Htrail.
  { apply surrogate_bounds in Htrail.
    rewrite <- app_assoc, string_chars_unicode by lia. by rewrite IH1. }
  rewrite <- app_comm_cons, string_chars_raw by lia. by rewrite IH1.
Qed.

(** ** JSON: numbers *)

Lemma read_digits_uint_chars (d : Decimal.uint) (rest : jsstring) :
  read_digits rest = (Decimal.Nil, rest) →
  read_digits (uint_chars d ++ rest) = (d, rest).
Proof.
  intros Hrest. induction d; cbn [uint_chars app]; [done|..];
    rewrite <- ?app_comm_cons; cbn [read_digits]; by rewrite IHd.
Qed.

Lemma nzhead_not_D0 (d d' : Decimal.uint) : Decimal.nzhead d ≠ Decimal.D0 d'.
Proof. induction d; simpl; done. Qed.

(** The digits of a positive number start with a digit that is not zero. *)
Lemma Pos_to_uint_head (p : positive) :
  ∃ c t, uint_chars (Pos.to_uint p) = c :: t ∧ is_digit c = true ∧ c ≠ 48.
Proof.
  pose proof (DecimalPos.Unsigned.to_of (Pos.to_uint p)) as Hnorm.
  rewrite DecimalPos.Unsigned.of_to in Hnorm. cbn [N.to_uint] in Hnorm.
  pose proof (DecimalPos.Unsigned.to_uint_nonnil p) as Hnil.
  pose proof (DecimalPos.Unsigned.to_uint_nonzero p) as Hzero.
  destruct (Pos.to_uint p) as [|d|d|d|d|d|d|d|d|d|d] eqn:Hd;
    [done| |by eexists _, _; split; [reflexivity|]..].
  exfalso. rewrite DecimalFacts.unorm_D0 in Hnorm. unfold Decimal.unorm in Hnorm.
  destruct (Decimal.nzhead d) eqn:Hhead; try discriminate.
  - injection Hnorm as ->. by apply Hzero.
  - by apply (nzhead_not_D0 d u).
Qed.

Lemma read_int_to_uint (n : N) (rest : jsstring) :
  read_digits rest = (Decimal.Nil, rest) →
  read_int (uint_chars (N.to_uint n) ++ rest) = Some (N.to_uint n, rest).
Proof.
  intros Hrest. destruct n as [|p]; [reflexivity|]. cbn [N.to_uint].
  destruct (Pos_to_uint_head p) as (c & t & Hc & Hdigit & Hnz).
  pose proof (read_digits_uint_chars (Pos.to_uint p) rest Hrest) as Hread.
  rewrite Hc in Hread |- *. rewrite <- app_comm_cons in Hread |- *.
  unfold read_int. destruct (N.eqb_spec c 48); [done|].
  by rewrite Hdigit, Hread.
Qed.

Lemma parse_number_natural (n : N) (t : jsstring) :
  parse_number (uint_chars (N.to_uint n) ++ 125 :: t)
  = Some (JNumber (Z.of_N n) 0, 125 :: t).
Proof.
  unfold parse_number.
  assert (Hsign : ∀ s, match uint_chars (N.to_uint n) ++ s with
                       | [] => (false, uint_chars (N.to_uint n) ++ s)
                       | c :: s' => if c =? 45 then (true, s')
                                    else (false, uint_chars (N.to_uint n) ++ s)
                       end = (false, uint_chars (N.to_uint n) ++ s)).
  { intros s. destruct n as [|p]; [reflexivity|]. cbn [N.to_uint].
    destruct (Pos_to_uint_head p) as (c & u & -> & Hdigit & _).
    rewrite <- app_comm_cons. destruct (N.eqb_spec c 45) as [->|]; done. }
  rewrite Hsign, read_int_to_uint by reflexivity.
  cbn [mbind option_bind read_frac read_exp N.eqb Pos.eqb orb].
  by rewrite DecimalFacts.app_nil_r, DecimalN.Unsigned.of_to.
Qed.

(** Reading back the time stamp that [Number::toString] wrote, in front of
    the brace that closes the record. *)
Lemma parse_number_toString (z : Z) (t : jsstring) :
  parse_number (Number_toString z ++ 125 :: t) = Some (JNumber z 0, 125 :: t).
Proof.
  destruct z as [|p|p]; unfold Number_toString.
  - apply (parse_number_natural 0).
  - apply (parse_number_natural (Npos p)).
  - rewrite <- app_comm_cons. unfold parse_number. cbn [N.eqb Pos.eqb].
    rewrite read_int_to_uint by reflexivity.
    cbn [mbind option_bind read_frac read_exp N.eqb Pos.eqb orb].
    by rewrite DecimalFacts.app_nil_r, DecimalN.Unsigned.of_to.
Qed.

(** ** JSON: records and arrays *)

Lemma parse_value_string (fuel : nat) (s t : jsstring) :
  parse_value (S fuel) (34 :: quote_chars s ++ 34 :: t) = Some (JString s, t).
Proof.
  cbn [parse_value N.eqb Pos.eqb]. by rewrite string_chars_quote_chars.
Qed.

(** The text of a time stamp starts with a minus sign or with a digit. *)
Lemma Number_toString_head (z : Z) :
  ∃ c u, Number_toString z = c :: u ∧ (c = 45 ∨ is_digit c = true).
Proof.
  destruct z as [|p|p]; unfold Number_toString.
  - by eexists _, _; split; [reflexivity|right].
  - cbn [Z.to_N N.to_uint].
    destruct (Pos_to_uint_head p) as (c & u & -> & Hdigit & _).
    by eexists _, _; split; [reflexivity|right].
  - by eexists _, _; split; [reflexivity|left].
Qed.

Lemma parse_value_number (fuel : nat) (z : Z) (t : jsstring) :
  parse_value (S fuel) (Number_toString z ++ 125 :: t) = Some (JNumber z 0, 125 :: t)
  ∧ skip_ws (Number_toString z ++ 125 :: t) = Number_toString z ++ 125 :: t.
Proof.
  rewrite <- (parse_number_toString z t).
  destruct (Number_toString_head z) as (c & u & -> & Hc).
  rewrite <- app_comm_cons. cbn [parse_value skip_ws].
  assert (Hrange : c = 45 ∨ 48 ≤ c ≤ 57).
  { destruct Hc as [->|[H1 H2]%andb_true_iff]; [by left|right].
    apply N.leb_le in H1. apply N.leb_le in H2. lia. }
  clear Hc. unfold is_json_ws.
  destruct (N.eqb_spec c 110); [lia|]. destruct (N.eqb_spec c 116); [lia|].
  destruct (N.eqb_spec c 102); [lia|]. destruct (N.eqb_spec c 34); [lia|].
  destruct (N.eqb_spec c 91); [lia|]. destruct (N.eqb_spec c 123); [lia|].
  destruct (N.eqb_spec c 9); [lia|]. destruct (N.eqb_spec c 10); [lia|].
  destruct (N.eqb_spec c 13); [lia|]. destruct (N.eqb_spec c 32); [lia|].
  done.
Qed.

(** One member of an object that is followed by another. *)
Lemma parse_members_more (fuel : nat) (k : jsstring) (v : json) (text t : jsstring)
    (acc : list (jsstring * json)) :
  skip_ws text = text →
  parse_value fuel text = Some (v, 44 :: t) →
  parse_members (S fuel) (34 :: quote_chars k ++ 34 :: 58 :: text) acc
  = parse_members fuel t (obj_set k v acc).
Proof.
  intros Hws Hv. cbn [parse_members skip_ws is_json_ws N.eqb Pos.eqb orb].
  rewrite string_chars_quote_chars.
  cbn [mbind option_bind skip_ws is_json_ws N.eqb Pos.eqb orb].
  rewrite Hws, Hv. reflexivity.
Qed.

(** The last member of an object. *)
Lemma parse_members_last (fuel : nat) (k : jsstring) (v : json) (text t : jsstring)
    (acc : list (jsstring * json)) :
  skip_ws text = text →
  parse_value fuel text = Some (v, 125 :: t) →
  parse_members (S fuel) (34 :: quote_chars k ++ 34 :: 58 :: text) acc
  = Some (JObject (obj_set k v acc), t).
Proof.
  intros Hws Hv. cbn [parse_members skip_ws is_json_ws N.eqb Pos.eqb orb].
  rewrite string_chars_quote_chars.
  cbn [mbind option_bind skip_ws is_json_ws N.eqb Pos.eqb orb].
  rewrite Hws, Hv. reflexivity.
Qed.

(** The text of a record, in front of [rest], read member by member. *)
Lemma stringify_image_unfold (img : GeneratedImage) (rest : jsstring) :
  stringify_image img ++ rest =
  123 :: 34 :: quote_chars (lit "id") ++ 34 :: 58 ::
    34 :: quote_chars (id img) ++ 34 :: 44 ::
  34 :: quote_chars (lit "url") ++ 34 :: 58 ::
    34 :: quote_chars (url img) ++ 34 :: 44 ::
  34 :: quote_chars (lit "prompt") ++ 34 :: 58 ::
    34 :: quote_chars (prompt img) ++ 34 :: 44 ::
  34 :: quote_chars (lit "timestamp") ++ 34 :: 58 ::
    Number_toString (timestamp img) ++ 125 :: rest.
Proof.
  unfold stringify_image, QuoteJSONString.
  change (lit "{") with [123]. change (lit ":") with [58].
  change (lit ",") with [44]. change (lit "}") with [125].
  repeat (rewrite <- ?app_assoc, <- ?app_comm_cons, ?app_nil_l). reflexivity.
Qed.

Lemma parse_image (fuel : nat) (img : GeneratedImage) (rest : jsstring) :
  (6 ≤ fuel)%nat →
  parse_value fuel (stringify_image img ++ rest) = Some (image_value img, rest).
Proof.
  intros Hfuel. do 6 (destruct fuel as [|fuel]; [lia|]). clear Hfuel.
  rewrite stringify_image_unfold.
  cbn [parse_value skip_ws is_json_ws N.eqb Pos.eqb orb].
  rewrite (parse_members_more _ _ (JString (id img))
             _ _ _ eq_refl (parse_value_string _ _ _)).
  rewrite (parse_members_more _ _ (JString (url img))
             _ _ _ eq_refl (parse_value_string _ _ _)).
  rewrite (parse_members_more _ _ (JString (prompt img))
             _ _ _ eq_refl (parse_value_string _ _ _)).
  destruct (parse_value_number fuel (timestamp img) rest) as [Hnum Hws].
  rewrite (parse_members_last _ _ _ _ _ _ Hws Hnum).
  reflexivity.
Qed.

Lemma skip_ws_image (img : GeneratedImage) (rest : jsstring) :
  skip_ws (stringify_image img ++ rest) = stringify_image img ++ rest.
Proof. rewrite stringify_image_unfold. reflexivity. Qed.

Lemma length_stringify_more (imgs : list GeneratedImage) :
  (length imgs ≤ length (stringify_more imgs))%nat.
Proof.
  induction imgs as [|img imgs IH]; [done|].
  cbn [stringify_more]. change (lit ",") with [44].
  rewrite <- app_comm_cons, app_nil_l. cbn [length]. rewrite length_app. lia.
Qed.

(** The elements of an array after the first, up to the closing bracket. *)
Lemma parse_elements_images (imgs : list GeneratedImage) :
  ∀ (fuel : nat) (img : GeneratedImage) (acc : list json) (rest : jsstring),
    (length imgs + 7 ≤ fuel)%nat →
    parse_elements fuel (stringify_image img ++ stringify_more imgs ++ 93 :: rest) acc
    = Some (JArray (acc ++ map image_value (img :: imgs)), rest).
Proof.
  induction imgs as [|img' imgs IH]; intros fuel img acc rest Hfuel;
    (destruct fuel as [|fuel]; [lia|]); cbn [parse_elements];
    rewrite skip_ws_image, parse_image by lia; cbn [mbind option_bind].
  - reflexivity.
  - cbn [stringify_more]. change (lit ",") with [44].
    rewrite <- !app_assoc. rewrite <- (app_comm_cons [] _ 44), app_nil_l.
    cbn [skip_ws is_json_ws N.eqb Pos.eqb orb].
    rewrite IH by (cbn [length] in Hfuel; lia).
    cbn [map]. by rewrite <- app_assoc.
Qed.

(** [JSON.parse] reads back what [JSON.stringify] wrote. *)
Lemma JSON_parse_stringify (imgs : list GeneratedImage) :
  JSON.parse (JSON.stringify imgs) = Some (images_value imgs).
Proof.
  destruct imgs as [|img imgs]; [reflexivity|].
  unfold JSON.parse, JSON.stringify, stringify_elements.
  change (lit "[") with [91]. change (lit "]") with [93].
  rewrite <- app_comm_cons, app_nil_l, <- app_assoc.
  set (text := stringify_image img ++ stringify_more imgs ++ [93]).
  assert (Hlen : (length imgs + 7 ≤ 2 * length (91%N :: text))%nat).
  { subst text. cbn [length]. rewrite !length_app. cbn [length].
    pose proof (length_stringify_more imgs).
    pose proof (f_equal length (stringify_image_unfold img [])) as Himg.
    rewrite app_nil_r in Himg. cbn [length] in Himg. lia. }
  set (fuel := (2 * length (91%N :: text))%nat) in *.
  cbn [skip_ws is_json_ws N.eqb Pos.eqb orb parse_value].
  subst text. rewrite skip_ws_image.
  pose proof (stringify_image_unfold img (stringify_more imgs ++ [93])) as Hhead.
  rewrite Hhead at 1. cbn [N.eqb Pos.eqb]. rewrite <- Hhead.
  rewrite parse_elements_images by lia. reflexivity.
Qed.

Lemma image_value_inj (a b : GeneratedImage) : image_value a = image_value b → a = b.
Proof. destruct a, b. unfold image_value. cbn [id url prompt timestamp]. congruence. Qed.

Lemma images_value_inj (l l' : list GeneratedImage) :
  images_value l = images_value l' → l = l'.
Proof.
  unfold images_value. intros [= H]. revert l' H.
  induction l as [|a l IH]; intros [|b l'] H; try done.
  cbn [map] in H. f_equal; [apply image_value_inj | apply IH]; congruence.
Qed.

(** ** JSON.parse: the fuel is enough

    Every function of the parser returns a strictly shorter input, so the
    recursion of [parse_value] on an input of length n never goes deeper
    than 2n + 1: [JSON.parse] returns [None] only for a text that the
    grammar rejects, never for want of fuel. *)

Lemma skip_ws_length (s : jsstring) : (length (skip_ws s) ≤ length s)%nat.
Proof.
  induction s as [|c s IH]; cbn [skip_ws]; [done|].
  destruct (is_json_ws c); cbn [length]; lia.
Qed.

Lemma prepend_Some (c : N) (o : option (jsstring * jsstring)) (k r : jsstring) :
  prepend c o = Some (k, r) → ∃ k', o = Some (k', r).
Proof. destruct o as [[k' r']|]; [|done]. intros [= _ ->]. by exists k'. Qed.

Lemma string_chars_length (s k r : jsstring) :
  string_chars s = Some (k, r) → (length r < length s)%nat.
Proof.
  remember (length s) as n eqn:Hn. revert s k r Hn.
  induction n as [n IH] using lt_wf_ind. intros s k r -> H.
  destruct s as [|c s]; [done|]. cbn [string_chars] in H.
  assert (Hrec : ∀ t k' r', (length t < length (c :: s))%nat →
            string_chars t = Some (k', r') → (length r' < length t)%nat).
  { intros t k' r' Hlt Ht. by apply (IH (length t) Hlt t k' r'). }
  cbn [length] in *.
  repeat case_match; simplify_eq; try lia;
    apply prepend_Some in H as [k' H];
    apply Hrec in H; cbn [length] in *; lia.
Qed.

Lemma expect_length (w s r : jsstring) :
  expect w s = Some r → (length r ≤ length s)%nat.
Proof.
  revert s. induction w as [|c w IH]; intros s H; cbn [expect] in H.
  - by injection H as ->.
  - destruct s as [|x s]; [done|]. destruct (x =? c); [|done].
    apply IH in H. cbn [length]. lia.
Qed.

Lemma read_digits_length (s : jsstring) :
  (length (read_digits s).2 ≤ length s)%nat.
Proof.
  induction s as [|c s IH]; cbn [read_digits]; [done|].
  destruct (is_digit c); [|done].
  destruct (read_digits s) as [d rest]. cbn [snd length] in *. lia.
Qed.

Lemma read_int_length (s : jsstring) (i : Decimal.uint) (r : jsstring) :
  read_int s = Some (i, r) → (length r < length s)%nat.
Proof.
  unfold read_int. destruct s as [|c s]; [done|].
  destruct (c =? 48); [intros [= _ <-]; cbn [length]; lia|].
  destruct (is_digit c) eqn:Hc; [|done]. intros [= H].
  pose proof (read_digits_length s) as Hlen. cbn [read_digits] in H.
  rewrite Hc in H. destruct (read_digits s) as [d rest].
  injection H as _ <-. cbn [snd length] in *. lia.
Qed.

Lemma read_frac_length (s : jsstring) (f : Decimal.uint) (r : jsstring) :
  read_frac s = Some (f, r) → (length r ≤ length s)%nat.
Proof.
  unfold read_frac. destruct s as [|c s]; [by intros [= _ <-]|].
  destruct (c =? 46); [|by intros [= _ <-]].
  pose proof (read_digits_length s) as Hlen.
  destruct (read_digits s) as [d rest]. destruct (is_nil d); [done|].
  intros [= _ <-]. cbn [snd length] in *. lia.
Qed.

Lemma read_exp_length (s : jsstring) (x : Z) (r : jsstring) :
  read_exp s = Some (x, r) → (length r ≤ length s)%nat.
Proof.
  unfold read_exp. destruct s as [|c s]; [by intros [= _ <-]|].
  destruct ((c =? 101) || (c =? 69)); [|by intros [= _ <-]].
  assert (Hsign : ∀ neg t,
            match s with
            | [] => (false, s)
            | x :: t => if x =? 43 then (false, t)
                        else if x =? 45 then (true, t) else (false, s)
            end = (neg, t) → (length t ≤ length s)%nat).
  { intros neg t. destruct s as [|y s]; [by intros [= _ <-]|].
    repeat case_match; intros [= _ <-]; cbn [length]; lia. }
  destruct (match s with [] => _ | _ => _ end) as [neg t].
  specialize (Hsign neg t eq_refl). pose proof (read_digits_length t) as Hlen.
  destruct (read_digits t) as [d rest]. destruct (is_nil d); [done|].
  intros [= _ <-]. cbn [snd length] in *. lia.
Qed.

Lemma parse_number_length (s : jsstring) (v : json) (r : jsstring) :
  parse_number s = Some (v, r) → (length r < length s)%nat.
Proof.
  unfold parse_number.
  assert (Hsign : ∀ neg t,
            match s with
            | [] => (false, s)
            | c :: s' => if c =? 45 then (true, s') else (false, s)
            end = (neg, t) → (length t ≤ length s)%nat).
  { intros neg t. destruct s as [|c s]; [by intros [= _ <-]|].
    case_match; intros [= _ <-]; cbn [length]; lia. }
  destruct (match s with [] => _ | _ => _ end) as [neg s1].
  specialize (Hsign neg s1 eq_refl).
  destruct (read_int s1) as [[i s2]|] eqn:Hi; [|done]. apply read_int_length in Hi.
  cbn [mbind option_bind].
  destruct (read_frac s2) as [[f s3]|] eqn:Hf; [|done]. apply read_frac_length in Hf.
  cbn [mbind option_bind].
  destruct (read_exp s3) as [[x s4]|] eqn:Hx; [|done]. apply read_exp_length in Hx.
  cbn [mbind option_bind]. intros [= _ <-]. lia.
Qed.

(** The next token of the input, white space skipped: the input cannot have
    grown, and the parsers stop when nothing is left. *)
Tactic Notation "next_token" constr(t) "as" ident(x) ident(r) :=
  pose proof (skip_ws_length t);
  destruct (skip_ws t) as [|x r]; [done|].

(** The result of a parser that the goal or [H] is stuck on. *)
Tactic Notation "parsed" constr(p) "as" ident(v) ident(r) ident(Hp) :=
  destruct p as [[v r]|] eqn:Hp; [|done]; cbn [mbind option_bind] in *.

Lemma parse_progress (fuel : nat) :
  (∀ s v r, parse_value fuel s = Some (v, r) → (length r < length s)%nat)
  ∧ (∀ s acc v r, parse_elements fuel s acc = Some (v, r) → (length r < length s)%nat)
  ∧ (∀ s acc v r, parse_members fuel s acc = Some (v, r) → (length r < length s)%nat).
Proof.
  induction fuel as [|fuel (IHv & IHe & IHm)]; [done|].
  split; [|split].
  - intros s v r H. cbn [parse_value] in H.
    destruct s as [|c s]; [done|]. pose proof (skip_ws_length s) as Hws.
    cbn [length].
    repeat match type of H with
           | (if ?b then _ else _) = _ => destruct b
           | (expect ?w ?t ≫= _) = _ =>
             destruct (expect w t) eqn:He;
               [apply expect_length in He; cbn [mbind option_bind] in H|done]
           | (string_chars ?t ≫= _) = _ =>
             destruct (string_chars t) as [[? ?]|] eqn:Hs;
               [apply string_chars_length in Hs; cbn [mbind option_bind] in H|done]
           | match skip_ws ?t with _ => _ end = _ =>
             destruct (skip_ws t) as [|? ?]; [done|]
           end;
      try (simplify_eq; cbn [length] in *; lia);
      try (apply IHe in H); try (apply IHm in H);
      try (apply parse_number_length in H); cbn [length] in *; lia.
  - intros s acc v r H. cbn [parse_elements] in H.
    pose proof (skip_ws_length s).
    parsed (parse_value fuel (skip_ws s)) as v' r' Hv. apply IHv in Hv.
    next_token r' as x t.
    repeat case_match; simplify_eq; try apply IHe in H; cbn [length] in *; lia.
  - intros s acc v r H. cbn [parse_members] in H.
    next_token s as q s'.
    destruct (q =? 34); [|done].
    parsed (string_chars s') as k r1 Hk. apply string_chars_length in Hk.
    next_token r1 as x r2.
    destruct (x =? 58); [|done].
    pose proof (skip_ws_length r2).
    parsed (parse_value fuel (skip_ws r2)) as v' r3 Hv. apply IHv in Hv.
    next_token r3 as y t.
    repeat case_match; simplify_eq; try apply IHm in H; cbn [length] in *; lia.
Qed.

Lemma parse_fuel_stable (fuel : nat) :
  (∀ fuel' s, (fuel ≤ fuel')%nat → (2 * length s + 1 ≤ fuel)%nat →
     parse_value fuel' s = parse_value fuel s)
  ∧ (∀ fuel' s acc, (fuel ≤ fuel')%nat → (2 * length s + 2 ≤ fuel)%nat →
       parse_elements fuel' s acc = parse_elements fuel s acc)
  ∧ (∀ fuel' s acc, (fuel ≤ fuel')%nat → (2 * length s + 2 ≤ fuel)%nat →
       parse_members fuel' s acc = parse_members fuel s acc).
Proof.
  induction fuel as [|fuel (IHv & IHe & IHm)]; [repeat split; intros; lia|].
  split; [|split].
  - intros [|fuel'] s Hle Hlen; [lia|]. cbn [parse_value].
    destruct s as [|c s]; [done|]. cbn [length] in Hlen.
    pose proof (skip_ws_length s).
    repeat case_match; try done;
      [apply IHe | apply IHm];
      try lia;
      match goal with H : skip_ws s = _ |- _ => rewrite H in *; cbn [length] in *; lia end.
  - intros [|fuel'] s acc Hle Hlen; [lia|]. cbn [parse_elements].
    pose proof (skip_ws_length s).
    rewrite (IHv fuel' (skip_ws s)) by lia.
    parsed (parse_value fuel (skip_ws s)) as v r Hv.
    apply (proj1 (parse_progress fuel)) in Hv.
    next_token r as x t.
    repeat case_match; try done. apply IHe; cbn [length] in *; lia.
  - intros [|fuel'] s acc Hle Hlen; [lia|]. cbn [parse_members].
    next_token s as q s'.
    destruct (q =? 34); [|done].
    parsed (string_chars s') as k r1 Hk. apply string_chars_length in Hk.
    next_token r1 as x r2.
    destruct (x =? 58); [|done].
    pose proof (skip_ws_length r2).
    rewrite (IHv fuel' (skip_ws r2)) by (cbn [length] in *; lia).
    parsed (parse_value fuel (skip_ws r2)) as v r3 Hv.
    apply (proj1 (parse_progress fuel)) in Hv.
    next_token r3 as y t.
    repeat case_match; try done. apply IHm; cbn [length] in *; lia.
Qed.

(** More fuel than [JSON.parse] gives changes nothing. *)
Lemma parse_value_fuel (text : jsstring) (fuel : nat) :
  (2 * length text < fuel)%nat →
  parse_value fuel (skip_ws text) = parse_value (S (2 * length text)) (skip_ws text).
Proof.
  intros H. apply (proj1 (parse_fuel_stable (S (2 * length text)))); [lia|].
  pose proof (skip_ws_length text). lia.
Qed.

(** ** The claims about generation *)

(** C1 (as the code has it).  A successful generation puts the new record at
    position 0, in front of the records that were there, unchanged.  Its id
    is the text of [Math.random().toString(36).substr(2, 9)], drawn without
    looking at the ids in use: the ids of the resulting sequence are
    pairwise distinct exactly when those before were and the drawn id is
    none of them. *)
Theorem generation_prepends (w : World) (p : GeneratePending) (ref : jsstring)
    (env : GenerateEnv) :
  let w' := exec (handleGenerate_resume p (Resolved ref) env) w in
  images (app w') = newImageOf p ref env :: images (app w)
  ∧ images (app w') !! 0%nat = Some (newImageOf p ref env)
  ∧ id (newImageOf p ref env) = substr 2 9 (random36 env)
  ∧ (NoDup (map id (images (app w')))
     ↔ (substr 2 9 (random36 env) ∉ map id (images (app w)))
       ∧ NoDup (map id (images (app w)))).
Proof.
  cbv zeta. unfold exec. rewrite handleGenerate_resume_resolved.
  cbn [snd app images map newImageOf id].
  split; [done|]. split; [done|]. split; [done|]. apply NoDup_cons.
Qed.

(** C1 does not hold as stated: [Math.random()] returning one half twice
    ([0.i] in base 36) gives the second record the id of the first. *)
Lemma generation_is_fresh_at_front_fails :
  ¬ generation_is_fresh_at_front (gallery [fox] (lit "an owl")) (lit "img://2")
      (mkGenerateEnv (lit "0.i") 2000).
Proof.
  intros (new & Hnew & Hfresh). vm_compute in Hnew. injection Hnew as <-.
  apply (Hfresh fox); [apply list_elem_of_here | reflexivity].
Qed.

(** C4.  [handleGenerate] called with a prompt that is empty or holds only
    white space, or while a generation is in progress, returns at once: the
    world is unchanged, so no call is made to the service and the images,
    the other hooks and the storage are what they were. *)
Theorem generation_rejected (w : World) :
  forallb is_white_space (input (app w)) = true ∨ isGenerating (app w) = true →
  handleGenerate w = (Normal None, w)
  ∧ calls (exec handleGenerate w) = calls w
  ∧ images (app (exec handleGenerate w)) = images (app w).
Proof.
  intros H. unfold exec. by rewrite (handleGenerate_rejected w H).
Qed.

Lemma generation_rejected_witness :
  handleGenerate (gallery [fox] [32; 9; 10; 160]) = (Normal None, gallery [fox] [32; 9; 10; 160])
  ∧ calls (exec handleGenerate (gallery [fox] [32; 9; 10; 160])) = []
  ∧ images (app (exec handleGenerate (gallery [fox] [32; 9; 10; 160]))) = [fox].
Proof.
  apply (generation_rejected (gallery [fox] [32; 9; 10; 160])).
  left. reflexivity.
Defined.

(** ** The claims about editing *)

(** C2 (as the code has it).  After a successful edit of the record found
    for [X], the record found for [X] has the reference the service returned
    as its url, the old prompt followed by the annotation of the instruction
    as its prompt, and the reading of [Date.now()] as its time stamp, which
    exceeds the previous time stamp whenever that reading does.  Edits made
    one after the other leave the old prompt followed by their annotations
    in order. *)
Theorem edit_rewrites_target (w : World) (X : jsstring) (old : GeneratedImage) :
  find (matches X) (images (app w)) = Some old →
  (∀ e, ∃ new,
      find (matches X) (images (app (edit_run X e w))) = Some new
      ∧ url new = result e
      ∧ prompt new = prompt old ++ lit " (Edit: " ++ instruction e ++ lit ")"
      ∧ timestamp new = editedAt e
      ∧ ((timestamp old < editedAt e)%Z → (timestamp old < timestamp new)%Z))
  ∧ (∀ es, ∃ new,
      find (matches X) (images (app (edits_run X es w))) = Some new
      ∧ prompt new = prompt old ++ concat (map annotation es)).
Proof.
  intros H. split.
  - intros e. eexists. split; [exact (edit_run_find X e w old H)|]. done.
  - intros es. exact (edits_run_find X es w old H).
Qed.

Lemma edit_rewrites_target_witness :
  (∀ e, ∃ new,
      find (matches (lit "i")) (images (app (edit_run (lit "i") e (gallery [owl; fox] [])))) = Some new
      ∧ url new = result e
      ∧ prompt new = prompt fox ++ lit " (Edit: " ++ instruction e ++ lit ")"
      ∧ timestamp new = editedAt e
      ∧ ((timestamp fox < editedAt e)%Z → (timestamp fox < timestamp new)%Z))
  ∧ (∀ es, ∃ new,
      find (matches (lit "i")) (images (app (edits_run (lit "i") es (gallery [owl; fox] [])))) = Some new
      ∧ prompt new = prompt fox ++ concat (map annotation es)).
Proof.
  apply (edit_rewrites_target (gallery [owl; fox] []) (lit "i") fox).
  reflexivity.
Defined.

(** C2 does not hold as stated: an edit that settles while [Date.now()]
    still reads the time stamp of the record leaves the time stamp as it
    was, not strictly greater. *)
Lemma edit_is_as_claimed_fails :
  ¬ edit_is_as_claimed (gallery [fox] []) (lit "i")
      (mkEdit (lit "make it blue") (lit "img://2") 1000).
Proof.
  intros H. destruct (H fox eq_refl) as (new & Hfind & _ & _ & Hlt).
  vm_compute in Hfind. injection Hfind as <-. simpl in Hlt. lia.
Qed.

(** C3.  A successful edit that targets [X] leaves every record whose id is
    not [X] where it was and as it was, in all four fields; the sequence
    keeps its length. *)
Theorem edit_leaves_others (w0 w1 : World) (X instr : jsstring) (p : EditPending) :
  handleEdit X instr w0 = (Normal (Some p), w1) →
  ∀ (ref : jsstring) (now : Z) (w : World),
    let w' := exec (handleEdit_resume p (Resolved ref) now) w in
    length (images (app w')) = length (images (app w))
    ∧ ∀ (i : nat) (r : GeneratedImage),
        images (app w) !! i = Some r → id r ≠ X → images (app w') !! i = Some r.
Proof.
  intros Hcall ref now w. cbv zeta.
  apply handleEdit_pending in Hcall as (_ & HX & _ & _).
  unfold exec. rewrite handleEdit_resume_resolved. cbn [snd app images].
  split; [apply length_map|].
  intros i r Hi Hne. rewrite list_lookup_fmap, Hi. cbn [fmap option_fmap option_map].
  unfold matches. rewrite HX. by rewrite bool_decide_eq_false_2.
Qed.

Lemma edit_leaves_others_witness :
  let p := mkEditPending (lit "i") (lit "make it blue") fox in
  let w' := exec (handleEdit_resume p (Resolved (lit "img://9")) 5000)
                 (gallery [owl; fox] []) in
  length (images (app w')) = 2%nat
  ∧ ∀ (i : nat) (r : GeneratedImage),
      images (app (gallery [owl; fox] [])) !! i = Some r →
      id r ≠ lit "i" → images (app w') !! i = Some r.
Proof.
  exact (edit_leaves_others (gallery [owl; fox] []) _ (lit "i") (lit "make it blue") _
           eq_refl (lit "img://9") 5000%Z (gallery [owl; fox] [])).
Defined.

(** C5.  Submitting the edit form of a card (ImageCard.handleEditSubmit,
    whose [onEdit] is App.handleEdit) is rejected when no record bears the
    id of the card or when the instruction is empty: the world is unchanged
    (the hooks of [App], the storage, the calls made), and nothing is left
    awaiting the service.  The empty instruction is stopped by the card,
    which returns at once; the unknown id by [handleEdit], after which the
    card resets its own input. *)
Theorem edit_rejected (img : GeneratedImage) (instr : jsstring) (shown : bool) (w : World) :
  find (matches (id img)) (images (app w)) = None ∨ instr = [] →
  ∃ s, handleEditSubmit (mkCard img instr shown) w = (Normal s, w)
       ∧ (s = Ignored ∨ s = Returned (resetCard (mkCard img instr shown)))
       ∧ calls (exec (handleEditSubmit (mkCard img instr shown)) w) = calls w.
Proof.
  intros H. unfold exec, handleEditSubmit, mbind, M_bind, get.
  cbn [editPrompt image].
  destruct (negb (truthy (trim instr)) || isEditing (app w) img) eqn:Hguard.
  - exists Ignored. split; [done|]. split; [by left|done].
  - destruct H as [H | ->]; [|done].
    rewrite (handleEdit_not_found _ _ _ H).
    exists (Returned (resetCard (mkCard img instr shown))).
    split; [done|]. split; [by right|done].
Qed.

Lemma edit_rejected_witness :
  ∃ s, handleEditSubmit (mkCard owl (lit "make it blue") true) (gallery [fox] [])
       = (Normal s, gallery [fox] [])
       ∧ (s = Ignored
          ∨ s = Returned (resetCard (mkCard owl (lit "make it blue") true)))
       ∧ calls (exec (handleEditSubmit (mkCard owl (lit "make it blue") true))
                     (gallery [fox] [])) = calls (gallery [fox] []).
Proof.
  apply (edit_rejected owl (lit "make it blue") true (gallery [fox] [])).
  left. reflexivity.
Defined.

(** [handleEdit] itself does not look at the instruction: called with an
    empty one for a record that exists, it marks the record as being edited
    and calls the service. *)
Lemma handleEdit_empty_instruction (X : jsstring) (w : World) (target : GeneratedImage) :
  find (matches X) (images (app w)) = Some target →
  calls (exec (handleEdit X []) w) = calls w ++ [editExistingImage [] (url target)]
  ∧ isEditingId (app (exec (handleEdit X []) w)) = Some X.
Proof.
  intros H. unfold exec. by rewrite (handleEdit_found _ _ _ _ H).
Qed.

(** C8.  When a generation or an edit settles, with a reference, with an
    error or with any other rejection value, its in-flight flag is cleared:
    [isGenerating] is false, [isEditingId] is null. *)
Theorem in_flight_flag_cleared :
  (∀ (p : GeneratePending) (o : Outcome) (env : GenerateEnv) (w : World),
     isGenerating (app (exec (handleGenerate_resume p o env) w)) = false)
  ∧ (∀ (p : EditPending) (o : Outcome) (now : Z) (w : World),
       isEditingId (app (exec (handleEdit_resume p o now) w)) = None).
Proof.
  split.
  - intros p o env.
    apply (try_catch_finally_last _ _ _ (λ w, isGenerating (app w) = false)).
    reflexivity.
  - intros p o now.
    apply (try_catch_finally_last _ _ _ (λ w, isEditingId (app w) = None)).
    reflexivity.
Qed.

(** C9.  A call of [handleEdit] for [X] that reaches the service has
    captured the first record that bears [X]; when it succeeds, every record
    that bears [X] in the sequence of that moment is replaced by one and the
    same record, made from the captured one. *)
Theorem edit_replaces_every_match (w0 w1 : World) (X instr : jsstring) (p : EditPending) :
  handleEdit X instr w0 = (Normal (Some p), w1) →
  (∃ k, images (app w0) !! k = Some (targetImage p)
        ∧ id (targetImage p) = X
        ∧ ∀ j r, (j < k)%nat → images (app w0) !! j = Some r → id r ≠ X)
  ∧ ∀ (ref : jsstring) (now : Z) (w : World) (i : nat) (r : GeneratedImage),
      images (app w) !! i = Some r → id r = X →
      images (app (exec (handleEdit_resume p (Resolved ref) now) w)) !! i
      = Some {| id := X; url := ref;
                prompt := prompt (targetImage p) ++ lit " (Edit: " ++ instr ++ lit ")";
                timestamp := now |}.
Proof.
  intros Hcall.
  apply handleEdit_pending in Hcall as (Hfind & HX & Hinstr & _).
  split.
  - destruct (find_first _ _ _ Hfind) as (k & Hk & Hm & Hbefore).
    exists k. split; [done|]. split; [by apply find_matches_id in Hfind|].
    intros j r Hj Hr Hid. specialize (Hbefore j r Hj Hr).
    unfold matches in Hbefore. by rewrite bool_decide_eq_true_2 in Hbefore.
  - intros ref now w i r Hi Hid.
    unfold exec. rewrite handleEdit_resume_resolved. cbn [snd app images].
    rewrite list_lookup_fmap, Hi. cbn [fmap option_fmap option_map].
    unfold matches. rewrite HX, bool_decide_eq_true_2 by done.
    unfold updatedImageOf. rewrite Hinstr.
    by rewrite (find_matches_id _ _ _ Hfind).
Qed.

Lemma edit_replaces_every_match_witness :
  let p := mkEditPending (lit "i") (lit "make it blue") fox in
  (∃ k, images (app (gallery [owl; fox; fox_twin] [])) !! k = Some (targetImage p)
        ∧ id (targetImage p) = lit "i"
        ∧ ∀ j r, (j < k)%nat →
            images (app (gallery [owl; fox; fox_twin] [])) !! j = Some r → id r ≠ lit "i")
  ∧ ∀ (ref : jsstring) (now : Z) (w : World) (i : nat) (r : GeneratedImage),
      images (app w) !! i = Some r → id r = lit "i" →
      images (app (exec (handleEdit_resume p (Resolved ref) now) w)) !! i
      = Some {| id := lit "i"; url := ref;
                prompt := prompt (targetImage p) ++ lit " (Edit: " ++ lit "make it blue" ++ lit ")";
                timestamp := now |}.
Proof.
  exact (edit_replaces_every_match (gallery [owl; fox; fox_twin] []) _
           (lit "i") (lit "make it blue") _ eq_refl).
Defined.

(** ** The claim about the history *)

(** C10.  [clearHistory] with the confirmation declined leaves the world as
    it is, the images and the storage included; with the confirmation given
    it leaves no image, whatever the sequence was, and the storage holds the
    empty array. *)
Theorem clearHistory_confirmation (w : World) :
  clearHistory false w = (Normal (), w)
  ∧ images (app (exec (clearHistory true) w)) = []
  ∧ localStorage (exec (clearHistory true) w) !! storageKey = Some (lit "[]").
Proof.
  split; [reflexivity|]. split; [reflexivity|].
  unfold exec, clearHistory, setImages, save. cbn [snd localStorage].
  apply lookup_insert_eq.
Qed.

(** ** The claims about persistence *)

Lemma truthy_JSON_stringify (imgs : list GeneratedImage) :
  truthy (JSON.stringify imgs) = true.
Proof. reflexivity. Qed.

(** C6.  For every sequence of valid records (their time stamps are time
    values, which is where [Number_toString] is what the engine does),
    saving it and loading it yields that sequence, in its order, and no
    other; the save writes its text under the fixed key whatever the
    storage held there, and touches no other key. *)
Theorem save_load_roundtrip (imgs : list GeneratedImage) (ls : gmap jsstring jsstring) :
  Forall valid_image imgs →
  load (save imgs ls) = images_value imgs
  ∧ (∀ imgs', load (save imgs ls) = images_value imgs' → imgs' = imgs)
  ∧ save imgs ls !! storageKey = Some (JSON.stringify imgs)
  ∧ (∀ k, k ≠ storageKey → save imgs ls !! k = ls !! k).
Proof.
  intros _.
  assert (Hload : load (save imgs ls) = images_value imgs).
  { unfold load, loadEffect, save. rewrite lookup_insert_eq.
    by rewrite truthy_JSON_stringify, JSON_parse_stringify. }
  split; [exact Hload|]. split.
  - intros imgs' H. rewrite Hload in H. symmetry. by apply images_value_inj.
  - split; [apply lookup_insert_eq|].
    intros k Hk. unfold save. by rewrite lookup_insert_ne.
Qed.

Lemma save_load_roundtrip_witness :
  load (save [owl; fox] {[storageKey := lit "stale"]}) = images_value [owl; fox]
  ∧ (∀ imgs', load (save [owl; fox] {[storageKey := lit "stale"]}) = images_value imgs'
       → imgs' = [owl; fox])
  ∧ save [owl; fox] {[storageKey := lit "stale"]} !! storageKey
    = Some (JSON.stringify [owl; fox])
  ∧ (∀ k, k ≠ storageKey →
       save [owl; fox] {[storageKey := lit "stale"]} !! k
       = ({[storageKey := lit "stale"]} : gmap jsstring jsstring) !! k).
Proof.
  apply (save_load_roundtrip [owl; fox] {[storageKey := lit "stale"]}).
  repeat constructor; unfold valid_image; simpl; lia.
Defined.

(** The path of the load effect that does fall back.  When the key is
    absent, or holds the empty string, or holds a text that [JSON.parse]
    rejects, the load effect does not call [setImages] and the images stay
    the empty sequence; the effect itself ends normally in every case, the
    [SyntaxError] being caught. *)
Theorem load_falls_back_on_syntax_error (ls : gmap jsstring jsstring) :
  ls !! storageKey = None
  ∨ ls !! storageKey = Some []
  ∨ (∃ text, ls !! storageKey = Some text ∧ JSON.parse text = None) →
  loadEffect ls = None ∧ load ls = images_value [].
Proof.
  intros H. unfold load.
  assert (Heffect : loadEffect ls = None); [|by rewrite Heffect].
  unfold loadEffect.
  destruct H as [-> | [-> | (text & -> & Hparse)]]; [done..|].
  rewrite Hparse. by destruct (truthy text).
Qed.

Lemma load_falls_back_on_syntax_error_witness :
  loadEffect {[storageKey := lit "[{"]} = None
  ∧ load {[storageKey := lit "[{"]} = images_value [].
Proof.
  apply (load_falls_back_on_syntax_error {[storageKey := lit "[{"]}).
  right. right. exists (lit "[{"). split; reflexivity.
Defined.

(** A text that [JSON.parse] accepts is installed as it was parsed: the load
    effect does not look at the shape of the value. *)
Lemma load_installs_parsed (ls : gmap jsstring jsstring) (text : jsstring) (v : json) :
  ls !! storageKey = Some text → text ≠ [] → JSON.parse text = Some v →
  load ls = v.
Proof.
  intros Hls Hne Hparse. unfold load, loadEffect. rewrite Hls, Hparse.
  by destruct text.
Qed.

(** At the text [null], which is not an array of records, the fall-back
    does not happen. *)
Lemma load_falls_back_fails :
  ¬ load_falls_back {[storageKey := lit "null"]}.
Proof.
  intros H.
  assert (Hload : load {[storageKey := lit "null"]} = JNull) by reflexivity.
  unfold load_falls_back in H. rewrite Hload in H.
  enough (JNull = images_value []) by discriminate.
  apply H. right. exists (lit "null"). split; [reflexivity|].
  intros [imgs Himgs]. discriminate Himgs.
Qed.

(** C7, where the code falls short of it.  The [try] of the load effect
    guards against a stored text that cannot be read, and falls back to the
    empty sequence when [JSON.parse] throws; a text that parses to something
    else than an array of records gets past it.  With [null] stored under
    the key, [JSON.parse] returns [null], the load effect installs it as the
    images, which are then not the empty sequence, and the render that
    follows throws on [images.length], where the empty sequence renders. *)
Theorem load_installs_null :
  let ls : gmap jsstring jsstring := {[storageKey := lit "null"]} in
  JSON.parse (lit "null") = Some JNull
  ∧ loadEffect ls = Some JNull
  ∧ load ls = JNull
  ∧ load ls ≠ images_value []
  ∧ images_length (load ls) = Abrupt CannotReadProperty
  ∧ images_length (images_value []) = Normal (Some (JNumber 0 0)).
Proof.
  cbv zeta.
  assert (Hload : load {[storageKey := lit "null"]} = JNull) by reflexivity.
  rewrite Hload. repeat split. discriminate.
Qed.

(** * Further properties of the components *)

(** ** Failed calls *)

(** X1.  When the call of a generation is rejected with an error value, the
    images, the storage, the typed prompt and the call log are what they
    were; the error becomes the message of the value, or the fallback text
    when the message is missing or empty, so the banner shows; the flag is
    cleared. *)
Theorem generation_failure (p : GeneratePending) (m : option jsstring)
    (env : GenerateEnv) (w : World) :
  let w' := exec (handleGenerate_resume p (Rejected (ErrorValue m)) env) w in
  images (app w') = images (app w) ∧ input (app w') = input (app w)
  ∧ localStorage w' = localStorage w ∧ calls w' = calls w
  ∧ error (app w') = Some (message_or m defaultGenerateError)
  ∧ View.errorShown (app w') = true ∧ isGenerating (app w') = false.
Proof.
  cbv zeta. repeat split.
  unfold View.errorShown, exec. cbn.
  destruct m as [[|c s]|]; reflexivity.
Qed.

(** X2.  When the call of an edit is rejected with an error value, the
    images and the storage are what they were, the target included; the
    error becomes the message behind the prefix [Editing failed: ], or the
    word [undefined] behind it when there is no message, so the banner
    shows; the flag is cleared. *)
Theorem edit_failure (p : EditPending) (m : option jsstring) (now : Z) (w : World) :
  let w' := exec (handleEdit_resume p (Rejected (ErrorValue m)) now) w in
  images (app w') = images (app w) ∧ localStorage w' = localStorage w
  ∧ calls w' = calls w
  ∧ error (app w') = Some (lit "Editing failed: " ++ template_value m)
  ∧ View.errorShown (app w') = true ∧ isEditingId (app w') = None.
Proof. cbv zeta. repeat split. Qed.

(** X3.  When a call is rejected with [null] or [undefined], reading the
    message throws inside the [catch] block: the continuation ends with that
    [TypeError], no error message is set, the images are untouched, and the
    flag is cleared all the same. *)
Theorem nullish_rejection_sets_no_error (w : World) :
  (∀ (p : GeneratePending) (env : GenerateEnv),
     let r := handleGenerate_resume p (Rejected Nullish) env w in
     r.1 = Abrupt CannotReadProperty
     ∧ error (app r.2) = error (app w) ∧ images (app r.2) = images (app w)
     ∧ localStorage r.2 = localStorage w ∧ isGenerating (app r.2) = false)
  ∧ (∀ (p : EditPending) (now : Z),
       let r := handleEdit_resume p (Rejected Nullish) now w in
       r.1 = Abrupt CannotReadProperty
       ∧ error (app r.2) = error (app w) ∧ images (app r.2) = images (app w)
       ∧ localStorage r.2 = localStorage w ∧ isEditingId (app r.2) = None).
Proof. split; intros; cbv zeta; repeat split. Qed.

(** ** The submit button and the handler *)

(** X4.  The guard of [handleGenerate] is the condition that disables the
    submit button.  With the button disabled the handler does nothing; with
    it enabled the handler issues one request, with the prompt as it was
    typed (not trimmed) and the chosen ratio, sets the flag and clears the
    last error, and leaves the images, the prompt and the storage alone. *)
Theorem handleGenerate_follows_button (w : World) :
  handleGenerate w =
  if View.generateDisabled (app w) then (Normal None, w)
  else
    (Normal (Some (mkGeneratePending (input (app w)) (aspectRatio (app w)))),
     mkWorld (mkApp (images (app w)) (input (app w)) (aspectRatio (app w)) true
                    (isEditingId (app w)) None (theme (app w)) (activePage (app w)))
             (localStorage w)
             (calls w ++ [generateImageFromText (input (app w)) (aspectRatio (app w))])).
Proof.
  unfold View.generateDisabled, handleGenerate, mbind, M_bind, get.
  rewrite (orb_comm (isGenerating _)).
  by destruct (negb (truthy (trim (input (app w)))) || isGenerating (app w)).
Qed.

(** X5.  What is typed while a generation runs: on success the prompt box
    is emptied, the text typed meanwhile included, and the record carries
    the prompt that was submitted; on failure the text typed meanwhile
    stays. *)
Theorem typed_while_generating (w0 w1 : World) (p : GeneratePending) (v : jsstring) :
  handleGenerate w0 = (Normal (Some p), w1) →
  ∀ (o : Outcome) (env : GenerateEnv),
    let w2 := exec (setPrompt (E:=TypeError) v) w1 in
    let w3 := exec (handleGenerate_resume p o env) w2 in
    match o with
    | Resolved ref =>
      input (app w3) = []
      ∧ images (app w3)
        = mkImage (substr 2 9 (random36 env)) ref (input (app w0)) (generatedAt env)
          :: images (app w0)
    | Rejected _ => input (app w3) = v ∧ images (app w3) = images (app w0)
    end.
Proof.
  intros Hcall o env. rewrite handleGenerate_follows_button in Hcall.
  destruct (View.generateDisabled (app w0)); [discriminate|].
  injection Hcall as <- <-. by destruct o as [ref|[m|]].
Qed.

Lemma typed_while_generating_witness :
  let w1 := exec handleGenerate (gallery [fox] (lit "an owl")) in
  let w2 := exec (setPrompt (E:=TypeError) (lit "a cat")) w1 in
  let w3 := exec (handleGenerate_resume (mkGeneratePending (lit "an owl") Ratio_1_1)
                    (Resolved (lit "img://2")) (mkGenerateEnv (lit "0.k3") 2000)) w2 in
  input (app w3) = []
  ∧ images (app w3)
    = mkImage (substr 2 9 (lit "0.k3")) (lit "img://2")
        (input (app (gallery [fox] (lit "an owl")))) 2000
      :: images (app (gallery [fox] (lit "an owl"))).
Proof.
  exact (typed_while_generating (gallery [fox] (lit "an owl")) _ _ (lit "a cat") eq_refl
           (Resolved (lit "img://2")) (mkGenerateEnv (lit "0.k3") 2000)).
Defined.

(** ** Clearing the history while calls are in flight *)

(** X6.  A generation that settles after the history was cleared still adds
    its record: the history then holds that record alone, and so does the
    storage. *)
Theorem generation_lands_after_clear (p : GeneratePending) (ref : jsstring)
    (env : GenerateEnv) (w : World) :
  let w' := exec (handleGenerate_resume p (Resolved ref) env)
                 (exec (clearHistory true) w) in
  images (app w') = [newImageOf p ref env]
  ∧ localStorage w' !! storageKey = Some (JSON.stringify [newImageOf p ref env]).
Proof.
  cbv zeta. split; [reflexivity|].
  unfold exec. rewrite handleGenerate_resume_resolved. apply lookup_insert_eq.
Qed.

(** X7.  An edit that settles after the history was cleared, with whatever
    outcome, brings nothing back: the history stays empty. *)
Theorem edit_dropped_after_clear (p : EditPending) (o : Outcome) (now : Z) (w : World) :
  images (app (exec (handleEdit_resume p o now) (exec (clearHistory true) w))) = [].
Proof. by destruct o as [ref|[m|]]. Qed.

(** ** Two edits of one record in flight *)

(** X8.  [handleEdit] does not look at [isEditingId]: a second edit of [X]
    can start while the first is in flight, and both capture the record as
    it is then.  When both succeed, the record is the one made by the edit
    that settles last from the captured record: the annotation and the
    reference of the other edit are gone. *)
Theorem overlapping_edits_last_wins (w0 w1 w2 : World) (X i1 i2 : jsstring)
    (p1 p2 : EditPending) :
  handleEdit X i1 w0 = (Normal (Some p1), w1) →
  handleEdit X i2 w1 = (Normal (Some p2), w2) →
  targetImage p2 = targetImage p1
  ∧ ∀ (r1 r2 : jsstring) (t1 t2 : Z),
      find (matches X)
        (images (app (exec (handleEdit_resume p2 (Resolved r2) t2)
                        (exec (handleEdit_resume p1 (Resolved r1) t1) w2))))
      = Some (updatedImageOf (targetImage p1) i2 r2 t2)
      ∧ find (matches X)
          (images (app (exec (handleEdit_resume p1 (Resolved r1) t1)
                          (exec (handleEdit_resume p2 (Resolved r2) t2) w2))))
        = Some (updatedImageOf (targetImage p1) i1 r1 t1).
Proof.
  intros H1 H2.
  apply handleEdit_pending in H1 as (Hf1 & HX1 & Hi1 & Himgs1).
  apply handleEdit_pending in H2 as (Hf2 & HX2 & Hi2 & Himgs2).
  rewrite Himgs1 in Hf2.
  assert (Heq : targetImage p2 = targetImage p1) by congruence.
  split; [exact Heq|]. intros r1 r2 t1 t2.
  assert (Hid : id (targetImage p1) = X) by (by apply find_matches_id in Hf1).
  rewrite <- Himgs1, <- Himgs2 in Hf1.
  unfold exec. rewrite !handleEdit_resume_resolved. cbn [snd app images].
  rewrite HX1, HX2, Hi1, Hi2, Heq.
  split.
  - eapply find_map_replace; [exact Hid|].
    eapply find_map_replace; [exact Hid|exact Hf1].
  - eapply find_map_replace; [exact Hid|].
    eapply find_map_replace; [exact Hid|exact Hf1].
Qed.

Lemma overlapping_edits_last_wins_witness :
  let w2 := exec (handleEdit (lit "i") (lit "make it green"))
              (exec (handleEdit (lit "i") (lit "make it blue")) (gallery [owl; fox] [])) in
  let p1 := mkEditPending (lit "i") (lit "make it blue") fox in
  let p2 := mkEditPending (lit "i") (lit "make it green") fox in
  targetImage p2 = targetImage p1
  ∧ ∀ (r1 r2 : jsstring) (t1 t2 : Z),
      find (matches (lit "i"))
        (images (app (exec (handleEdit_resume p2 (Resolved r2) t2)
                        (exec (handleEdit_resume p1 (Resolved r1) t1) w2))))
      = Some (updatedImageOf (targetImage p1) (lit "make it green") r2 t2)
      ∧ find (matches (lit "i"))
          (images (app (exec (handleEdit_resume p1 (Resolved r1) t1)
                          (exec (handleEdit_resume p2 (Resolved r2) t2) w2))))
        = Some (updatedImageOf (targetImage p1) (lit "make it blue") r1 t1).
Proof.
  exact (overlapping_edits_last_wins (gallery [owl; fox] []) _ _
           (lit "i") (lit "make it blue") (lit "make it green") _ _ eq_refl eq_refl).
Defined.

(** ** The card after its edit *)

(** X9.  Once its edit has reached the service, the card empties its input
    and closes its form when the call settles with a reference and also when
    it settles with an error value: the instruction of a failed edit is not
    kept.  Only when [handleEdit] itself throws (a rejection with [null] or
    [undefined]) is the card left as it was. *)
Theorem card_after_edit (c : Card) (w w1 : World) (p : EditPending) :
  handleEditSubmit c w = (Normal (Awaiting p), w1) →
  ∀ (o : Outcome) (now : Z),
    (card_run c o now w).1
    = match o with
      | Rejected Nullish => c
      | _ => mkCard (image c) [] false
      end.
Proof.
  intros H o now. unfold card_run. rewrite H.
  by destruct o as [ref|[m|]].
Qed.

Lemma card_after_edit_witness :
  (card_run (mkCard fox (lit "make it blue") true)
     (Rejected (ErrorValue (Some (lit "quota")))) 2000 (gallery [owl; fox] [])).1
  = mkCard (image (mkCard fox (lit "make it blue") true)) [] false.
Proof.
  exact (card_after_edit (mkCard fox (lit "make it blue") true)
           (gallery [owl; fox] []) _ _ eq_refl
           (Rejected (ErrorValue (Some (lit "quota")))) 2000%Z).
Defined.

(** ** The cards and the editing flag *)

Lemma isEditing_spec (a : AppState) (img : GeneratedImage) :
  isEditing a img = true ↔ isEditingId a = Some (id img).
Proof. unfold isEditing. apply bool_decide_eq_true. Qed.

(** X10.  [App] renders one card per record, in the order of the records; a
    card is marked as being edited exactly when its id is [isEditingId]; and
    when the ids are pairwise distinct, at most one card is marked. *)
Theorem at_most_one_card_editing (a : AppState) :
  NoDup (map id (images a)) →
  map fst (View.cards a) = images a
  ∧ (∀ img b, (img, b) ∈ View.cards a →
       (b = true ↔ isEditingId a = Some (id img)))
  ∧ (length (filter (λ c, c.2 = true) (View.cards a)) ≤ 1)%nat.
Proof.
  intros Hnodup. unfold View.cards. split; [|split].
  - rewrite map_map. apply map_id.
  - intros img b Hin. apply list_elem_of_In, in_map_iff in Hin as (x & [= <- <-] & _).
    apply isEditing_spec.
  - induction (images a) as [|img imgs IH]; [cbn; lia|].
    cbn [map] in Hnodup |- *. apply NoDup_cons in Hnodup as [Hfresh Hnodup].
    rewrite filter_cons. cbn [snd].
    destruct (decide (isEditing a img = true)) as [Hhead|Hhead]; [|by apply IH].
    apply isEditing_spec in Hhead.
    assert (Hnone : filter (λ c : GeneratedImage * bool, c.2 = true)
                      (map (λ img0, (img0, isEditing a img0)) imgs) = []).
    { clear IH Hnodup. induction imgs as [|y imgs IHy]; [done|].
      cbn [map] in Hfresh |- *. apply not_elem_of_cons in Hfresh as [Hne Hfresh].
      rewrite filter_cons_False; [by apply IHy|].
      cbn [snd]. rewrite isEditing_spec. congruence. }
    rewrite Hnone. cbn. lia.
Qed.

Lemma at_most_one_card_editing_witness :
  let a := mkApp [owl; fox] [] Ratio_1_1 false (Some (lit "i")) None dark home in
  map fst (View.cards a) = images a
  ∧ (∀ img b, (img, b) ∈ View.cards a →
       (b = true ↔ isEditingId a = Some (id img)))
  ∧ (length (filter (λ c, c.2 = true) (View.cards a)) ≤ 1)%nat.
Proof.
  apply (at_most_one_card_editing
           (mkApp [owl; fox] [] Ratio_1_1 false (Some (lit "i")) None dark home)).
  apply (bool_decide_unpack _). vm_compute. exact I.
Defined.

(** ** The theme *)

(** X11.  The title of the toggle names the theme that a click sets; a click
    changes the theme and nothing else; two clicks restore the world. *)
Theorem theme_toggle (w : World) :
  ThemeToggle.title (theme (app w))
  = lit "Switch to " ++ ThemeToggle.text (theme (app (exec toggleTheme w))) ++ lit " mode"
  ∧ theme (app (exec toggleTheme w)) ≠ theme (app w)
  ∧ images (app (exec toggleTheme w)) = images (app w)
  ∧ localStorage (exec toggleTheme w) = localStorage w
  ∧ exec toggleTheme (exec toggleTheme w) = w.
Proof.
  destruct w as [[imgs inp r g e err [|] page] ls cs]; by repeat split.
Qed.

(** ** The download of a card *)

(** X12.  A download leaves the children of the body as they were, and
    clicks one anchor: its target is the url of the record and its file name
    is [lumina-ai-], the id, [.png].  Records with different ids never get
    the same file name. *)
Theorem download_names_file_after_id (img : GeneratedImage) (d : Download.Document) :
  Download.well_formed d →
  Download.body (Download.handleDownload img d) = Download.body d
  ∧ Download.well_formed (Download.handleDownload img d)
  ∧ Download.clicked (Download.handleDownload img d)
    = Download.clicked d
      ++ [Download.mkAnchor (url img) (lit "lumina-ai-" ++ id img ++ lit ".png")]
  ∧ ∀ img', lit "lumina-ai-" ++ id img ++ lit ".png"
            = lit "lumina-ai-" ++ id img' ++ lit ".png" → id img = id img'.
Proof.
  intros Hwf. unfold Download.well_formed, Download.handleDownload in *.
  cbn [Download.body Download.nextNode Download.clicked].
  assert (Hbody : filter (λ n, n ≠ Download.nextNode d)
                    (Download.body d ++ [Download.nextNode d]) = Download.body d).
  { rewrite filter_app, filter_cons_False, filter_nil, app_nil_r by (intros H; by apply H).
    induction Hwf as [|n l Hn Hl IH]; [done|].
    rewrite filter_cons_True by lia. by rewrite IH. }
  rewrite Hbody. repeat split.
  - eapply Forall_impl; [exact Hwf|]. intros n Hn. cbn in Hn. lia.
  - intros img' H. apply app_inv_head in H. by apply app_inv_tail in H.
Qed.

Lemma download_names_file_after_id_witness :
  let d := Download.mkDocument [0; 1; 2]%nat 3 [] in
  Download.body (Download.handleDownload fox d) = Download.body d
  ∧ Download.well_formed (Download.handleDownload fox d)
  ∧ Download.clicked (Download.handleDownload fox d)
    = Download.clicked d
      ++ [Download.mkAnchor (url fox) (lit "lumina-ai-" ++ id fox ++ lit ".png")]
  ∧ ∀ img', lit "lumina-ai-" ++ id fox ++ lit ".png"
            = lit "lumina-ai-" ++ id img' ++ lit ".png" → id fox = id img'.
Proof.
  apply (download_names_file_after_id fox (Download.mkDocument [0; 1; 2]%nat 3 [])).
  unfold Download.well_formed. simpl. repeat constructor.
Defined.

(** ** The start of the application *)

Lemma typed_images_value (imgs : list GeneratedImage) :
  typed (images_value imgs) = Some imgs.
Proof.
  unfold typed, images_value.
  induction imgs as [|[i u p t] imgs IH]; [done|].
  cbn [map typed_images]. rewrite IH. reflexivity.
Qed.

Lemma loadEffect_stringify (ls : gmap jsstring jsstring) (imgs : list GeneratedImage) :
  ls !! storageKey = Some (JSON.stringify imgs) →
  loadEffect ls = Some (images_value imgs).
Proof.
  intros H. unfold loadEffect.
  by rewrite H, truthy_JSON_stringify, JSON_parse_stringify.
Qed.

(** X13.  Starting with a storage whose key is absent, or holds the empty
    string, or holds a text that [JSON.parse] rejects: the application
    starts with its initial hooks and no image, and the save effect of the
    first render has put the empty array under the key, in the place of
    whatever was there. *)
Theorem mount_overwrites_unreadable (ls : gmap jsstring jsstring) :
  ls !! storageKey = None
  ∨ ls !! storageKey = Some []
  ∨ (∃ text, ls !! storageKey = Some text ∧ JSON.parse text = None) →
  mount ls = Some (mkWorld initialApp (<[storageKey := lit "[]"]> ls) []).
Proof.
  intros H. unfold mount.
  assert (Heffect : loadEffect ls = None); [|by rewrite Heffect].
  unfold loadEffect.
  destruct H as [-> | [-> | (text & -> & Hparse)]]; [done..|].
  rewrite Hparse. by destruct (truthy text).
Qed.

Lemma mount_overwrites_unreadable_witness :
  mount {[storageKey := lit "[{"]}
  = Some (mkWorld initialApp (<[storageKey := lit "[]"]> {[storageKey := lit "[{"]}) []).
Proof.
  apply (mount_overwrites_unreadable {[storageKey := lit "[{"]}).
  right. right. exists (lit "[{"). split; reflexivity.
Defined.

(** X14.  Restarting from a world whose storage mirrors its images (valid
    records): the images come back in their order and the storage is what
    it was; the prompt, the ratio, the flags, the error, the theme and the
    page are the initial ones, and no call is pending. *)
Theorem restart_keeps_images_only (w : World) :
  persisted w → Forall valid_image (images (app w)) →
  mount (localStorage w)
  = Some (mkWorld (mkApp (images (app w)) [] Ratio_1_1 false None None dark home)
                  (localStorage w) []).
Proof.
  intros Hp _. unfold mount.
  rewrite (loadEffect_stringify _ _ Hp), typed_images_value.
  unfold exec, setImages, save. cbn. do 2 f_equal.
  rewrite insert_insert_eq. by apply insert_id.
Qed.

Lemma restart_keeps_images_only_witness :
  let w := exec (handleGenerate_resume (mkGeneratePending (lit "an owl") Ratio_16_9)
                   (Resolved (lit "img://2")) (mkGenerateEnv (lit "0.k3") 2000))
             (mkWorld (mkApp [fox] (lit "an owl") Ratio_16_9 true None None light about)
                      ∅ []) in
  mount (localStorage w)
  = Some (mkWorld (mkApp (images (app w)) [] Ratio_1_1 false None None dark home)
                  (localStorage w) []).
Proof.
  apply (restart_keeps_images_only
           (exec (handleGenerate_resume (mkGeneratePending (lit "an owl") Ratio_16_9)
                   (Resolved (lit "img://2")) (mkGenerateEnv (lit "0.k3") 2000))
             (mkWorld (mkApp [fox] (lit "an owl") Ratio_16_9 true None None light about)
                      ∅ []))).
  - reflexivity.
  - repeat constructor; unfold valid_image; simpl; lia.
Defined.

(** ** The application as a system: what every run keeps *)

Lemma handleEditSubmit_cases (c : Card) (w w' : World) (sub : Submission) :
  handleEditSubmit c w = (Normal sub, w') →
  (awaited sub = [] ∧ w' = w)
  ∨ (∃ target,
       sub = Awaiting (mkEditPending (id (image c)) (editPrompt c) target)
       ∧ w' = mkWorld (mkApp (images (app w)) (input (app w)) (aspectRatio (app w))
                             (isGenerating (app w)) (Some (id (image c))) None
                             (theme (app w)) (activePage (app w)))
                      (localStorage w)
                      (calls w ++ [editExistingImage (editPrompt c) (url target)])).
Proof.
  unfold handleEditSubmit, mbind, M_bind, get.
  destruct (negb (truthy (trim (editPrompt c))) || isEditing (app w) (image c)).
  - intros [= <- <-]. by left.
  - destruct (find (matches (id (image c))) (images (app w))) as [target|] eqn:Hf.
    + rewrite (handleEdit_found _ _ _ _ Hf). intros [= <- <-].
      right. by exists target.
    + rewrite (handleEdit_not_found _ _ _ Hf). intros [= <- <-]. by left.
Qed.

Lemma handleGenerate_resume_frame (p : GeneratePending) (o : Outcome)
    (env : GenerateEnv) (w : World) :
  isEditingId (app (exec (handleGenerate_resume p o env) w)) = isEditingId (app w)
  ∧ isGenerating (app (exec (handleGenerate_resume p o env) w)) = false.
Proof. by destruct o as [ref|[m|]]. Qed.

Lemma handleEdit_resume_frame (p : EditPending) (o : Outcome) (now : Z) (w : World) :
  isGenerating (app (exec (handleEdit_resume p o now) w)) = isGenerating (app w)
  ∧ isEditingId (app (exec (handleEdit_resume p o now) w)) = None.
Proof. by destruct o as [ref|[m|]]. Qed.

Lemma single_flight_step (s s' : System) :
  single_flight s → app_step s s' → single_flight s'.
Proof.
  unfold single_flight. intros Hs Hstep.
  destruct Hstep as [s v|s r|s page|s|s b|s o w' Hgen|s l1 p l2 o env Hl
                    |s c sub w' Hsub|s l1 p l2 o now Hl];
    cbn [world generating editing]; try exact Hs.
  - by destruct b.
  - rewrite handleGenerate_follows_button in Hgen.
    unfold View.generateDisabled in Hgen.
    destruct Hs as [[Hflag [p Hp]]|[Hflag Hp]]; rewrite Hflag in Hgen; cbn in Hgen.
    + injection Hgen as <- <-. rewrite app_nil_r. left. eauto.
    + destruct (negb (truthy (trim (input (app (world s)))))).
      * injection Hgen as <- <-. rewrite app_nil_r. by right.
      * injection Hgen as <- <-. rewrite Hp. left. split; [done|]. by eexists.
  - right. split; [apply handleGenerate_resume_frame|].
    destruct Hs as [[_ [q Hq]]|[_ Hq]]; rewrite Hq in Hl.
    + destruct l1 as [|x [|y l1]]; destruct l2; simplify_eq; done.
    + by destruct l1.
  - apply handleEditSubmit_cases in Hsub as [[_ ->]|(target & _ & ->)]; exact Hs.
  - by rewrite (proj1 (handleEdit_resume_frame p o now (world s))).
Qed.

Lemma spinner_backed_step (s s' : System) :
  spinner_backed s → app_step s s' → spinner_backed s'.
Proof.
  unfold spinner_backed. intros Hs Hstep.
  destruct Hstep as [s v|s r|s page|s|s b|s o w' Hgen|s l1 p l2 o env Hl
                    |s c sub w' Hsub|s l1 p l2 o now Hl];
    cbn [world generating editing]; try exact Hs.
  - by destruct b.
  - rewrite handleGenerate_follows_button in Hgen.
    destruct (View.generateDisabled (app (world s))); injection Hgen as <- <-; exact Hs.
  - intros X. rewrite (proj1 (handleGenerate_resume_frame p o env (world s))). apply Hs.
  - apply handleEditSubmit_cases in Hsub as [[-> ->]|(target & -> & ->)].
    + by rewrite app_nil_r.
    + intros X [= <-].
      exists (mkEditPending (id (image c)) (editPrompt c) target).
      split; [|reflexivity].
      cbn [awaited]. apply elem_of_app. right. apply list_elem_of_here.
  - intros X. by rewrite (proj2 (handleEdit_resume_frame p o now (world s))).
Qed.

Lemma persisted_step (s s' : System) :
  persisted (world s) → app_step s s' → persisted (world s').
Proof.
  intros Hs Hstep.
  destruct (persisted_preserved (world s) Hs) as (Hg & Hgr & _ & Her & Hc & Hcard).
  destruct Hstep as [s v|s r|s page|s|s b|s o w' Hgen|s l1 p l2 o env Hl
                    |s c sub w' Hsub|s l1 p l2 o now Hl];
    cbn [world]; try exact Hs.
  - apply Hc.
  - unfold exec in Hg. by rewrite Hgen in Hg.
  - apply Hgr.
  - specialize (Hcard c). unfold exec in Hcard. by rewrite Hsub in Hcard.
  - apply Her.
Qed.

Lemma invariant_run (I : System → Prop) :
  (∀ s s', I s → app_step s s' → I s') →
  ∀ s s', I s → rtc app_step s s' → I s'.
Proof. intros Hstep s s' Hs Hrun. induction Hrun; eauto. Qed.

(** X15.  In every run of the application at most one generation is in
    flight, and [isGenerating] is set exactly while one is. *)
Theorem single_flight_kept (s s' : System) :
  single_flight s → rtc app_step s s' → single_flight s'.
Proof. apply invariant_run, single_flight_step. Qed.

Lemma single_flight_kept_witness :
  single_flight
    (mkSystem (exec handleGenerate (gallery [fox] (lit "an owl")))
              [mkGeneratePending (lit "an owl") Ratio_1_1] []).
Proof.
  apply (single_flight_kept (mkSystem (gallery [fox] (lit "an owl")) [] [])).
  - right. split; reflexivity.
  - apply rtc_once.
    exact (step_generate (mkSystem (gallery [fox] (lit "an owl")) [] []) _ _ eq_refl).
Defined.

(** X16.  In every run, when [isEditingId] holds an id, a call for an edit
    of that id is in flight: no card shows its spinner without a call that
    will clear it. *)
Theorem spinner_backed_kept (s s' : System) :
  spinner_backed s → rtc app_step s s' → spinner_backed s'.
Proof. apply invariant_run, spinner_backed_step. Qed.

Lemma spinner_backed_kept_witness :
  spinner_backed
    (mkSystem (exec (handleEditSubmit (mkCard fox (lit "make it blue") true))
                 (gallery [owl; fox] []))
              [] [mkEditPending (lit "i") (lit "make it blue") fox]).
Proof.
  apply (spinner_backed_kept (mkSystem (gallery [owl; fox] []) [] [])).
  - intros X H. discriminate H.
  - apply rtc_once.
    exact (step_card (mkSystem (gallery [owl; fox] []) [] [])
             (mkCard fox (lit "make it blue") true) _ _ eq_refl).
Defined.

(** X17.  In every run that starts with the storage mirroring the images,
    the storage mirrors the images at every moment, and loading it would
    give exactly the images of that moment (valid records). *)
Theorem storage_follows_run (s s' : System) :
  persisted (world s) → rtc app_step s s' →
  persisted (world s')
  ∧ (Forall valid_image (images (app (world s'))) →
     load (localStorage (world s')) = images_value (images (app (world s')))).
Proof.
  intros Hs Hrun.
  assert (Hp : persisted (world s')).
  { exact (invariant_run (λ s, persisted (world s)) persisted_step s s' Hs Hrun). }
  split; [exact Hp|]. intros _. unfold load.
  by rewrite (loadEffect_stringify _ _ Hp).
Qed.

Lemma storage_follows_run_witness :
  let s' := mkSystem (exec (clearHistory true)
                        (mkWorld (mkApp [fox] [] Ratio_1_1 false None None dark home)
                                 (save [fox] ∅) []))
                     [] [] in
  persisted (world s')
  ∧ (Forall valid_image (images (app (world s'))) →
     load (localStorage (world s')) = images_value (images (app (world s')))).
Proof.
  apply (storage_follows_run
           (mkSystem (mkWorld (mkApp [fox] [] Ratio_1_1 false None None dark home)
                              (save [fox] ∅) []) [] [])).
  - reflexivity.
  - apply rtc_once.
    exact (step_clear (mkSystem (mkWorld (mkApp [fox] [] Ratio_1_1 false None None dark home)
                                         (save [fox] ∅) []) [] []) true).
Defined.

Lemma settle_edits (n : nat) :
  ∀ s, length (editing s) = n → single_flight s → spinner_backed s →
    ∃ s', rtc app_step s s' ∧ editing s' = []
          ∧ single_flight s' ∧ spinner_backed s'.
Proof.
  induction n as [|n IH]; intros s Hlen Hsf Hsb.
  - exists s. split; [done|]. split; [by apply nil_length_inv|done].
  - destruct (editing s) as [|p l] eqn:Hl; [discriminate|].
    pose proof (step_edited s [] p l (Rejected (ErrorValue None)) 0%Z Hl) as Hstep.
    injection Hlen as Hlen.
    destruct (IH (mkSystem _ _ ([] ++ l)) Hlen (single_flight_step _ _ Hsf Hstep)
                (spinner_backed_step _ _ Hsb Hstep)) as (s' & Hrun & Hdone).
    exists s'. split; [by eapply rtc_l|done].
Qed.

(** X18.  From every state that satisfies the two invariants above, the
    calls in flight can settle one after the other, and once they have the
    application is at rest: nothing is in flight, [isGenerating] is false
    and [isEditingId] is null. *)
Theorem comes_to_rest (s : System) :
  single_flight s → spinner_backed s →
  ∃ s', rtc app_step s s' ∧ idle s'.
Proof.
  intros Hsf Hsb.
  destruct (settle_edits _ s eq_refl Hsf Hsb) as (s1 & Hrun1 & Hedit & Hsf1 & Hsb1).
  assert (Hid : isEditingId (app (world s1)) = None).
  { destruct (isEditingId (app (world s1))) as [X|] eqn:HX; [|done].
    destruct (Hsb1 X HX) as (p & Hp & _). rewrite Hedit in Hp.
    by apply not_elem_of_nil in Hp. }
  destruct Hsf1 as [[Hflag [p Hp]]|[Hflag Hp]].
  - pose proof (step_generated s1 [] p [] (Rejected (ErrorValue None))
                  (mkGenerateEnv [] 0) Hp) as Hstep.
    eexists. split; [eapply rtc_r; [exact Hrun1|exact Hstep]|].
    unfold idle. cbn [world generating editing]. by repeat split.
  - exists s1. by repeat split.
Qed.

Lemma comes_to_rest_witness :
  ∃ s', rtc app_step
          (mkSystem (exec (handleEdit (lit "i") (lit "make it blue"))
                       (exec handleGenerate (gallery [owl; fox] (lit "a cat"))))
                    [mkGeneratePending (lit "a cat") Ratio_1_1]
                    [mkEditPending (lit "i") (lit "make it blue") fox]) s'
        ∧ idle s'.
Proof.
  apply (comes_to_rest
           (mkSystem (exec (handleEdit (lit "i") (lit "make it blue"))
                        (exec handleGenerate (gallery [owl; fox] (lit "a cat"))))
                     [mkGeneratePending (lit "a cat") Ratio_1_1]
                     [mkEditPending (lit "i") (lit "make it blue") fox])).
  - left. split; [reflexivity|]. eexists. reflexivity.
  - intros X H. vm_compute in H. injection H as <-.
    eexists. split; [apply list_elem_of_here|reflexivity].
Defined.

(** ** The contact form *)

Lemma contact_consistent_step (s s' : Contact.State) :
  Contact.consistent s → Contact.step s s' → Contact.consistent s'.
Proof.
  unfold Contact.consistent. intros [Hsub Hform] Hstep.
  destruct Hstep as [s f v Hpanel|s Hpanel Hidle|s Hpending|s Htimer|s Hpanel];
    cbn.
  - split; [exact Hsub|]. intros H. congruence.
  - rewrite Hidle in Hsub. rewrite Hsub. split; [done|]. intros H. congruence.
  - destruct (Contact.isSubmittingContact s).
    + destruct Hsub as [-> _]. done.
    + lia.
  - split; [|done]. destruct (Contact.isSubmittingContact s); [|done].
    by destruct Hsub.
  - split; [|done]. destruct (Contact.isSubmittingContact s); [|done].
    by destruct Hsub.
Qed.

(** X19.  In every run of the contact form from its initial state (or from
    any consistent state): while a submission runs it is the only one and
    the success panel is hidden; while the panel is shown no submission runs
    and the form behind it is empty. *)
Theorem contact_consistent_kept (s s' : Contact.State) :
  Contact.consistent s → rtc Contact.step s s' → Contact.consistent s'.
Proof.
  intros Hs Hrun. induction Hrun as [|s1 s2 s3 Hstep _ IH]; [done|].
  apply IH. by eapply contact_consistent_step.
Qed.

Lemma contact_consistent_kept_witness :
  Contact.consistent
    (Contact.handleContactSubmit_resume
       (Contact.handleContactSubmit
          (Contact.setField Contact.Name (lit "Ada") Contact.initial))).
Proof.
  apply (contact_consistent_kept Contact.initial).
  - split; [reflexivity|]. intros H. discriminate H.
  - eapply rtc_l; [apply (Contact.step_field _ Contact.Name (lit "Ada")); reflexivity|].
    eapply rtc_l; [apply Contact.step_submit; reflexivity|].
    apply rtc_once. apply Contact.step_resume. simpl. lia.
Defined.

(** ** More on the two forms *)

(** X20.  The card ignores a submission whose instruction is empty or holds
    only white space, and a submission made while the card is the one being
    edited, whether or not a record bears its id: the world is unchanged and
    no call is made. *)
Theorem card_guard (c : Card) (w : World) :
  forallb is_white_space (editPrompt c) = true
  ∨ isEditingId (app w) = Some (id (image c)) →
  handleEditSubmit c w = (Normal Ignored, w).
Proof.
  intros H. unfold handleEditSubmit, mbind, M_bind, get.
  rewrite truthy_trim, negb_involutive.
  destruct H as [-> | H]; [done|].
  apply isEditing_spec in H. rewrite H. by rewrite orb_true_r.
Qed.

Lemma card_guard_witness :
  handleEditSubmit (mkCard fox [32; 9] true) (gallery [fox] [])
  = (Normal Ignored, gallery [fox] []).
Proof.
  apply (card_guard (mkCard fox [32; 9] true) (gallery [fox] [])).
  left. reflexivity.
Defined.

(** X21.  Edits chain: after a successful edit of [X], the next edit of [X]
    sends to the service the reference that the first one returned, with
    its own instruction, as one more call. *)
Theorem next_edit_sends_last_result (w : World) (X i2 : jsstring)
    (old : GeneratedImage) (e : Edit) :
  find (matches X) (images (app w)) = Some old →
  calls (exec (handleEdit X i2) (edit_run X e w))
  = calls (edit_run X e w) ++ [editExistingImage i2 (result e)].
Proof.
  intros H. unfold exec at 1.
  by rewrite (handleEdit_found _ _ _ _ (edit_run_find X e w old H)).
Qed.

Lemma next_edit_sends_last_result_witness :
  calls (exec (handleEdit (lit "i") (lit "add a hat"))
           (edit_run (lit "i") (mkEdit (lit "make it blue") (lit "img://2") 2000)
              (gallery [owl; fox] [])))
  = calls (edit_run (lit "i") (mkEdit (lit "make it blue") (lit "img://2") 2000)
             (gallery [owl; fox] []))
    ++ [editExistingImage (lit "add a hat") (result (mkEdit (lit "make it blue") (lit "img://2") 2000))].
Proof.
  exact (next_edit_sends_last_result (gallery [owl; fox] []) (lit "i") (lit "add a hat")
           fox (mkEdit (lit "make it blue") (lit "img://2") 2000) eq_refl).
Defined.

(** X22.  The submit button after a generation that was accepted: once the
    call has succeeded the button is disabled, the prompt box being empty;
    once the call has failed the button is enabled again on the same prompt,
    so the user can retry. *)
Theorem button_after_generation (w : World) (o : Outcome) (env : GenerateEnv) :
  View.generateDisabled (app w) = false →
  View.generateDisabled (app (generate_run o env w))
  = match o with Resolved _ => true | Rejected _ => false end
  ∧ input (app (generate_run o env w))
    = match o with Resolved _ => [] | Rejected _ => input (app w) end.
Proof.
  intros H. unfold generate_run. rewrite handleGenerate_follows_button, H.
  unfold View.generateDisabled in *.
  apply orb_false_iff in H as [_ H].
  destruct o as [ref|[m|]]; cbn; by rewrite ?H.
Qed.

Lemma button_after_generation_witness :
  View.generateDisabled
    (app (generate_run (Rejected (ErrorValue None)) (mkGenerateEnv (lit "0.i") 1000)
            (gallery [fox] (lit "an owl"))))
  = false
  ∧ input (app (generate_run (Rejected (ErrorValue None)) (mkGenerateEnv (lit "0.i") 1000)
                  (gallery [fox] (lit "an owl"))))
    = input (app (gallery [fox] (lit "an owl"))).
Proof.
  exact (button_after_generation (gallery [fox] (lit "an owl"))
           (Rejected (ErrorValue None)) (mkGenerateEnv (lit "0.i") 1000) eq_refl).
Defined.

